(** * spotR-ai: the validation and identification controllers

    A shallow embedding of [controllers/validate.controller.js]
    ([validatePost], [validateData] and its local [extractAndParseJSON])
    and of the identification controller ([identifyCar]), with the
    JavaScript built-ins they rest on: strings as sequences of UTF-16 code
    units, the regular expressions of the source run by a backtracking
    matcher, [JSON.parse], truthiness and property lookup.  Handlers are
    computations in an exception monad that records every external call. *)

From Stdlib Require Import List NArith ZArith Bool Lia String Ascii.
Import ListNotations.

#[local] Set Warnings "-register-all".
Local Open Scope string_scope.
Local Open Scope list_scope.
Local Open Scope N_scope.

(** ** JavaScript strings *)

Module JsString.

(** A JavaScript string is a sequence of UTF-16 code units. *)
Definition char := N.
Definition jsstring := list char.

(** Decoding of a UTF-8 literal of this file into code units (one, two and
    three byte forms; every literal below stays in the basic plane). *)
Fixpoint utf8 (bs : list N) : jsstring :=
  match bs with
  | [] => []
  | b :: r =>
      if b <? 128 then b :: utf8 r
      else if b <? 224 then
        match r with
        | b1 :: r1 => ((b - 192) * 64 + (b1 - 128)) :: utf8 r1
        | [] => [b]
        end
      else
        match r with
        | b1 :: b2 :: r2 =>
            ((b - 224) * 4096 + (b1 - 128) * 64 + (b2 - 128)) :: utf8 r2
        | _ => [b]
        end
  end.

Definition js (s : string) : jsstring :=
  utf8 (map N_of_ascii (list_ascii_of_string s)).

(** [jsq] reads a literal in which the apostrophe stands for the double
    quote, to write JSON texts. *)
Definition jsq (s : string) : jsstring :=
  map (fun c => if c =? 39 then 34 else c) (js s).

(** WhiteSpace and LineTerminator of ECMAScript: what [trim] strips and what
    [\s] matches. *)
Definition is_space (c : char) : bool :=
  (c =? 9) || (c =? 10) || (c =? 11) || (c =? 12) || (c =? 13) || (c =? 32)
  || (c =? 160) || (c =? 5760) || ((8192 <=? c) && (c <=? 8202))
  || (c =? 8232) || (c =? 8233) || (c =? 8239) || (c =? 8287)
  || (c =? 12288) || (c =? 65279).

Fixpoint trimStart (s : jsstring) : jsstring :=
  match s with
  | c :: r => if is_space c then trimStart r else s
  | [] => []
  end.

Definition trimEnd (s : jsstring) : jsstring := rev (trimStart (rev s)).

Definition trim (s : jsstring) : jsstring := trimEnd (trimStart s).

(** [toLowerCase], one code unit at a time.  The code units whose lower-case
    form has an ASCII letter are mapped exactly: A to Z, U+0130 and U+212A.
    Any other code unit lower-cases to text outside ASCII and is kept as it
    is; the source only searches the result for ASCII words. *)
Definition lower_char (c : char) : jsstring :=
  if (65 <=? c) && (c <=? 90) then [c + 32]
  else if c =? 304 then [105; 775]
  else if c =? 8490 then [107]
  else [c].

Definition toLowerCase (s : jsstring) : jsstring := flat_map lower_char s.

Fixpoint starts_with (p s : jsstring) : bool :=
  match p, s with
  | [], _ => true
  | a :: p', b :: s' => (a =? b) && starts_with p' s'
  | _ :: _, [] => false
  end.

(** [s.includes(p)] *)
Fixpoint includes (s p : jsstring) : bool :=
  starts_with p s ||
  match s with
  | [] => false
  | _ :: r => includes r p
  end.

(** [s.split(',')]: the pieces between the commas, in order. *)
Fixpoint split_on (sep : char) (s : jsstring) : list jsstring :=
  match s with
  | [] => [[]]
  | c :: r =>
      if c =? sep then [] :: split_on sep r
      else
        match split_on sep r with
        | piece :: more => (c :: piece) :: more
        | [] => [[c]]
        end
  end.

(** [pieces.join(sep)], the inverse of [split_on]. *)
Fixpoint join (sep : char) (pieces : list jsstring) : jsstring :=
  match pieces with
  | [] => []
  | [p] => p
  | p :: more => p ++ sep :: join sep more
  end.

End JsString.
Export JsString.

(** ** Regular expressions *)

Module Regex.

(** The expressions of the source are sequences of character classes, each
    taken once or under a greedy star. *)
Inductive item :=
| One (p : char -> bool)
| Star (p : char -> bool).

Definition regex := list item.

Definition lit (c : char) : char -> bool := N.eqb c.
Definition any : char -> bool := fun _ => true.
Definition except (c : char) : char -> bool := fun x => negb (x =? c).

(** A greedy star of the class [p] followed by the rest of the expression
    [k]: it first takes as much as it can and gives back one code unit at a
    time until [k] matches. *)
Fixpoint star (p : char -> bool) (k : jsstring -> option (jsstring * jsstring))
  (s : jsstring) : option (jsstring * jsstring) :=
  match s with
  | c :: s' =>
      if p c then
        match star p k s' with
        | Some (m, rest) => Some (c :: m, rest)
        | None => k s
        end
      else k s
  | [] => k s
  end.

(** Backtracking match of [re] at the head of [s]: the matched text and the
    rest. *)
Fixpoint match_here (re : regex) (s : jsstring) {struct re}
  : option (jsstring * jsstring) :=
  match re with
  | [] => Some ([], s)
  | One p :: re' =>
      match s with
      | c :: s' =>
          if p c then
            match match_here re' s' with
            | Some (m, rest) => Some (c :: m, rest)
            | None => None
            end
          else None
      | [] => None
      end
  | Star p :: re' => star p (match_here re') s
  end.

(** [s.match(re)] without the [g] flag: the leftmost match, with the text
    before and after it. *)
Fixpoint search (re : regex) (s : jsstring)
  : option (jsstring * jsstring * jsstring) :=
  match match_here re s with
  | Some (m, rest) => Some ([], m, rest)
  | None =>
      match s with
      | [] => None
      | c :: s' =>
          match search re s' with
          | Some (pre, m, post) => Some (c :: pre, m, post)
          | None => None
          end
      end
  end.

Definition matched (r : option (jsstring * jsstring * jsstring))
  : option jsstring :=
  match r with
  | Some (_, m, _) => Some m
  | None => None
  end.

(** [s.replace(re, rep)] with the [g] flag.  [skip] counts the code units of
    the current match still to drop; after an empty match one code unit is
    copied. *)
Fixpoint replace_from (re : regex) (rep : jsstring) (skip : nat)
  (s : jsstring) {struct s} : jsstring :=
  match skip with
  | S k =>
      match s with
      | _ :: s' => replace_from re rep k s'
      | [] => []
      end
  | O =>
      match match_here re s with
      | Some (m, _) =>
          rep ++
          match s with
          | c :: s' =>
              match m with
              | [] => c :: replace_from re rep 0 s'
              | _ :: m' => replace_from re rep (List.length m') s'
              end
          | [] => []
          end
      | None =>
          match s with
          | c :: s' => c :: replace_from re rep 0 s'
          | [] => []
          end
      end
  end.

Definition replace_all (re : regex) (rep : jsstring) (s : jsstring) : jsstring :=
  replace_from re rep 0 s.

Definition literal (s : jsstring) : regex := map (fun c => One (lit c)) s.

(** [/```json\s*/g], [/```\s*/g] and [/`/g] *)
Definition re_fence_json : regex := literal (js "```json") ++ [Star is_space].
Definition re_fence : regex := literal (js "```") ++ [Star is_space].
Definition re_backtick : regex := literal (js "`").

(** [/\{[^}]*\}/] and [/\{[\s\S]*\}/] *)
Definition re_object_narrow : regex := [One (lit 123); Star (except 125); One (lit 125)].
Definition re_object_greedy : regex := [One (lit 123); Star any; One (lit 125)].

(** The shape the two have in common: an opening brace, a star, a closing
    brace; and what follows the star, the closing brace alone. *)
Definition braces (p : char -> bool) : regex := [One (lit 123); Star p; One (lit 125)].

Definition closing : jsstring -> option (jsstring * jsstring) :=
  match_here [One (lit 125)].

End Regex.
Export Regex.

(** ** JSON values and [JSON.parse] *)

Module Json.

(** A number is kept as the exact decimal its literal denotes,
    [(-1)^neg * mant * 10^exp10]; the double of JavaScript is its correctly
    rounded image. *)
Record number := MkNumber { neg : bool; mant : N; exp10 : Z }.

Inductive value :=
| VUndefined
| VNull
| VBool (b : bool)
| VNum (n : number)
| VStr (s : jsstring)
| VArr (elements : list value)
| VObj (members : list (jsstring * value)).

Definition jseq (a b : jsstring) : bool :=
  (List.length a =? List.length b)%nat && starts_with a b.

(** Own properties of an object, in creation order: defining a key again
    keeps its place and replaces its value. *)
Fixpoint set_member (k : jsstring) (v : value) (ms : list (jsstring * value))
  : list (jsstring * value) :=
  match ms with
  | [] => [(k, v)]
  | (k', v') :: r =>
      if jseq k k' then (k, v) :: r else (k', v') :: set_member k v r
  end.

Fixpoint get_member (k : jsstring) (ms : list (jsstring * value)) : value :=
  match ms with
  | [] => VUndefined
  | (k', v) :: r => if jseq k k' then v else get_member k r
  end.

(** The four white space code units of the JSON grammar. *)
Definition is_json_ws (c : char) : bool :=
  (c =? 9) || (c =? 10) || (c =? 13) || (c =? 32).

Fixpoint skip_ws (s : jsstring) : jsstring :=
  match s with
  | c :: r => if is_json_ws c then skip_ws r else s
  | [] => []
  end.

Definition is_digit (c : char) : bool := (48 <=? c) && (c <=? 57).

Definition hex_value (c : char) : option N :=
  if is_digit c then Some (c - 48)
  else if (97 <=? c) && (c <=? 102) then Some (c - 87)
  else if (65 <=? c) && (c <=? 70) then Some (c - 55)
  else None.

Definition escape_value (c : char) : option char :=
  if c =? 34 then Some 34
  else if c =? 92 then Some 92
  else if c =? 47 then Some 47
  else if c =? 98 then Some 8
  else if c =? 102 then Some 12
  else if c =? 110 then Some 10
  else if c =? 114 then Some 13
  else if c =? 116 then Some 9
  else None.

(** The characters of a string literal after its opening quote, up to the
    closing quote: the decoded string and what follows the literal. *)
Fixpoint parse_string (s : jsstring) : option (jsstring * jsstring) :=
  match s with
  | [] => None
  | c :: r =>
      if c =? 34 then Some ([], r)
      else if c =? 92 then
        match r with
        | e :: r1 =>
            if e =? 117 then
              match r1 with
              | h1 :: h2 :: h3 :: h4 :: r2 =>
                  match hex_value h1, hex_value h2, hex_value h3, hex_value h4 with
                  | Some a, Some b, Some c', Some d =>
                      match parse_string r2 with
                      | Some (str, rest) =>
                          Some ((a * 4096 + b * 256 + c' * 16 + d) :: str, rest)
                      | None => None
                      end
                  | _, _, _, _ => None
                  end
              | _ => None
              end
            else
              match escape_value e with
              | Some x =>
                  match parse_string r1 with
                  | Some (str, rest) => Some (x :: str, rest)
                  | None => None
                  end
              | None => None
              end
        | [] => None
        end
      else if c <? 32 then None
      else
        match parse_string r with
        | Some (str, rest) => Some (c :: str, rest)
        | None => None
        end
  end.

(** The longest run of decimal digits at the head of [s]. *)
Fixpoint digits (s : jsstring) : list N * jsstring :=
  match s with
  | c :: r =>
      if is_digit c then let (ds, rest) := digits r in ((c - 48) :: ds, rest)
      else ([], s)
  | [] => ([], [])
  end.

Definition decimal (ds : list N) : N := fold_left (fun acc d => acc * 10 + d) ds 0.

Definition parse_int_part (s : jsstring) : option (list N * jsstring) :=
  match s with
  | c :: r =>
      if c =? 48 then Some ([0], r)
      else if is_digit c then Some (digits s)
      else None
  | [] => None
  end.

Definition parse_fraction (s : jsstring) : option (list N * jsstring) :=
  match s with
  | c :: r =>
      if c =? 46 then
        match digits r with
        | ([], _) => None
        | (ds, rest) => Some (ds, rest)
        end
      else Some ([], s)
  | [] => Some ([], s)
  end.

Definition exponent_digits (sign : bool) (s : jsstring) : option (Z * jsstring) :=
  match digits s with
  | ([], _) => None
  | (ds, rest) =>
      let e := Z.of_N (decimal ds) in
      Some (if sign then Z.opp e else e, rest)
  end.

Definition parse_exponent (s : jsstring) : option (Z * jsstring) :=
  match s with
  | c :: r =>
      if (c =? 101) || (c =? 69) then
        match r with
        | sg :: r1 =>
            if sg =? 45 then exponent_digits true r1
            else if sg =? 43 then exponent_digits false r1
            else exponent_digits false r
        | [] => None
        end
      else Some (0%Z, s)
  | [] => Some (0%Z, s)
  end.

Definition parse_number (s : jsstring) : option (number * jsstring) :=
  let (sign, s1) :=
    match s with
    | c :: r => if c =? 45 then (true, r) else (false, s)
    | [] => (false, s)
    end in
  match parse_int_part s1 with
  | Some (ip, s2) =>
      match parse_fraction s2 with
      | Some (fp, s3) =>
          match parse_exponent s3 with
          | Some (e, s4) =>
              Some (MkNumber sign (decimal (ip ++ fp))
                      (e - Z.of_nat (List.length fp)), s4)
          | None => None
          end
      | None => None
      end
  | None => None
  end.

Definition keyword (w : jsstring) (v : value) (s : jsstring)
  : option (value * jsstring) :=
  if starts_with w s then Some (v, skipn (List.length w) s) else None.

(** Recursive descent over the JSON grammar.  [fuel] bounds the depth of the
    calls; every call consumes input, so the length of the text is enough
    (lemma [parse_value_fuel] below). *)
Fixpoint parse_value (fuel : nat) (s : jsstring) {struct fuel}
  : option (value * jsstring) :=
  match fuel with
  | O => None
  | S n =>
      match s with
      | [] => None
      | c :: r =>
          if c =? 123 then
            match skip_ws r with
            | c' :: r' =>
                if c' =? 125 then Some (VObj [], r')
                else parse_members n (c' :: r') []
            | [] => None
            end
          else if c =? 91 then
            match skip_ws r with
            | c' :: r' =>
                if c' =? 93 then Some (VArr [], r')
                else parse_elements n (c' :: r') []
            | [] => None
            end
          else if c =? 34 then
            match parse_string r with
            | Some (str, rest) => Some (VStr str, rest)
            | None => None
            end
          else if c =? 116 then keyword (js "true") (VBool true) s
          else if c =? 102 then keyword (js "false") (VBool false) s
          else if c =? 110 then keyword (js "null") VNull s
          else
            match parse_number s with
            | Some (x, rest) => Some (VNum x, rest)
            | None => None
            end
      end
  end

with parse_members (fuel : nat) (s : jsstring) (acc : list (jsstring * value))
  {struct fuel} : option (value * jsstring) :=
  match fuel with
  | O => None
  | S n =>
      match s with
      | [] => None
      | c :: r =>
          if c =? 34 then
            match parse_string r with
            | Some (key, r1) =>
                match skip_ws r1 with
                | c1 :: r2 =>
                    if c1 =? 58 then
                      match parse_value n (skip_ws r2) with
                      | Some (v, r3) =>
                          match skip_ws r3 with
                          | c2 :: r4 =>
                              if c2 =? 44 then
                                parse_members n (skip_ws r4) (set_member key v acc)
                              else if c2 =? 125 then
                                Some (VObj (set_member key v acc), r4)
                              else None
                          | [] => None
                          end
                      | None => None
                      end
                    else None
                | [] => None
                end
            | None => None
            end
          else None
      end
  end

with parse_elements (fuel : nat) (s : jsstring) (acc : list value)
  {struct fuel} : option (value * jsstring) :=
  match fuel with
  | O => None
  | S n =>
      match parse_value n s with
      | Some (v, r1) =>
          match skip_ws r1 with
          | c :: r2 =>
              if c =? 44 then parse_elements n (skip_ws r2) (acc ++ [v])
              else if c =? 93 then Some (VArr (acc ++ [v]), r2)
              else None
          | [] => None
          end
      | None => None
      end
  end.

(** [JSON.parse(text)]: one value with white space around it and nothing
    else; [None] stands for the [SyntaxError]. *)
Definition JSON_parse (text : jsstring) : option value :=
  match parse_value (S (List.length text)) (skip_ws text) with
  | Some (v, rest) =>
      match skip_ws rest with
      | [] => Some v
      | _ :: _ => None
      end
  | None => None
  end.


(** The decimal [mant * 10^exp10] rounds to the double zero when it is at
    most half the least positive double, [2^-1075]. *)
Definition num_is_zero (x : number) : bool :=
  (mant x =? 0) ||
  ((exp10 x <? 0)%Z &&
   (Z.of_N (mant x) * 2 ^ 1075 <=? 10 ^ (- exp10 x))%Z).

(** ToBoolean *)
Definition truthy (v : value) : bool :=
  match v with
  | VUndefined | VNull => false
  | VBool b => b
  | VNum x => negb (num_is_zero x)
  | VStr s => match s with [] => false | _ :: _ => true end
  | VArr _ | VObj _ => true
  end.

End Json.
Export Json.

(** ** Exceptions, external calls and the handler monad *)

Module Effects.

(** What a handler can catch.  [SyntaxError] is the failure of [JSON.parse]
    on a text, [TypeError] a property read on [null] or a method call on a
    value that lacks it, [Error] an [Error] object with its message, thrown
    by the source or by a collaborator. *)
Inductive exn :=
| SyntaxError (text : jsstring)
| TypeError (what : jsstring)
| Error (message : jsstring).

Inductive level := Info | Warn | Severe.

(** An uploaded file as the multipart middleware hands it over. *)
Record file := MkFile { path : jsstring; originalname : jsstring }.

(** The response of [fetch]: the [ok] flag and the outcome of [json()]. *)
Record fetch_response := MkFetch { ok : bool; json : exn + value }.

(** Everything a handler does to the outside, in the order it happens. *)
Inductive event :=
| EUpload (p : jsstring)
| ERead (p : jsstring)
| ECompletion
| EPersist (document authorization : value)
| EUnlink (p : jsstring)
| ELog (l : level) (text : jsstring)
| ERespond (status : N) (body : value).

(** The collaborators of one request: the media store, the file system,
    the completion provider (its reply is the [content] of the first
    choice), the persistence service, and the wording the engine gives to
    its own exceptions.  The prompt sent to the provider is not modelled;
    the reply is arbitrary. *)
Record World := MkWorld {
  upload : jsstring -> exn + jsstring;
  readFile : jsstring -> exn + jsstring;
  completion : exn + jsstring;
  persist : value -> value -> exn + fetch_response;
  unlink : jsstring -> exn + unit;
  engine_text : exn -> jsstring
}.

(** [err.message] *)
Definition message_of (w : World) (e : exn) : jsstring :=
  match e with
  | Error m => m
  | _ => engine_text w e
  end.

(** A computation ends in a value or a thrown exception and leaves the
    events it caused. *)
Definition M (A : Type) : Type := (exn + A) * list event.

Definition ret {A} (a : A) : M A := (inr a, []).
Definition throw {A} (e : exn) : M A := (inl e, []).
Definition emit (ev : event) : M unit := (inr tt, [ev]).

Definition bind {A B} (m : M A) (f : A -> M B) : M B :=
  match m with
  | (inl e, t) => (inl e, t)
  | (inr a, t) => let (r, t') := f a in (r, t ++ t')
  end.

(** [try { m } catch (err) { h err }] *)
Definition try_catch {A} (m : M A) (h : exn -> M A) : M A :=
  match m with
  | (inl e, t) => let (r, t') := h e in (r, t ++ t')
  | (inr a, t) => (inr a, t)
  end.

(** [try { m } finally { f }] *)
Definition try_finally {A} (m : M A) (f : M unit) : M A :=
  let (r, t) := m in
  match f with
  | (inl e, t') => (inl e, t ++ t')
  | (inr _, t') => (r, t ++ t')
  end.

(** The outcome of [m], caught. *)
Definition attempt {A} (m : M A) : M (exn + A) :=
  let (r, t) := m in (inr r, t).

Definition settle {A} (r : exn + A) : M A :=
  match r with
  | inl e => throw e
  | inr a => ret a
  end.

(** One call to a collaborator: the event, then its outcome. *)
Definition call {A} (ev : event) (r : exn + A) : M A :=
  bind (emit ev) (fun _ => settle r).

Definition trace {A} (m : M A) : list event := snd m.
Definition outcome {A} (m : M A) : exn + A := fst m.

End Effects.
Export Effects.

Declare Scope js_scope.
Delimit Scope js_scope with M.
Notation "x <- m ;; k" := (bind m (fun x => k))
  (at level 61, m at next level, right associativity) : js_scope.
Notation "m ;; k" := (bind m (fun _ => k))
  (at level 61, right associativity) : js_scope.

(** ** The controllers *)

Module Controller.

Local Open Scope js_scope.

(** [JSON.parse] as a computation: the value, or the [SyntaxError]. *)
Definition json_parse (text : jsstring) : M value :=
  match JSON_parse text with
  | Some v => ret v
  | None => throw (SyntaxError text)
  end.

(** [v.key] for the keys the handlers read ([success], [info]), neither of
    which a built-in prototype defines. *)
Definition get (v : value) (key : jsstring) : M value :=
  match v with
  | VUndefined | VNull => throw (TypeError key)
  | VObj ms => ret (get_member key ms)
  | _ => ret VUndefined
  end.

Definition obj (ms : list (string * value)) : value :=
  VObj (map (fun kv => (js (fst kv), snd kv)) ms).

Definition str (s : string) : value := VStr (js s).

Definition respond (status : N) (body : value) : M unit :=
  emit (ERespond status body).

Definition log (l : level) (text : string) : M unit := emit (ELog l (js text)).

(** *** validatePost *)

(** The fields of the multipart body (a missing one is [undefined]), the
    uploaded files and the [authorization] header. *)
Record PostRequest := MkPostRequest {
  brand : value;
  model : value;
  description : value;
  tags : value;
  files : option (list file);
  authorization : value
}.

Record uploaded := MkUploaded { name : jsstring; url : jsstring; base64 : jsstring }.

(** Lines 12 to 18: a string of tags is parsed as JSON, else split. *)
Definition parse_tags (t : value) : M value :=
  match t with
  | VStr s =>
      try_catch (json_parse s)
        (fun _ => ret (VArr (map (fun x => VStr (trim x)) (split_on 44 s))))
  | _ => ret t
  end.

(** [images.map(async (file) => ...)]: every upload is started, in order. *)
Fixpoint start_uploads (w : World) (images : list file)
  : M (list (file * (exn + jsstring))) :=
  match images with
  | [] => ret []
  | f :: more =>
      emit (EUpload (path f)) ;;
      started <- start_uploads w more ;;
      ret ((f, upload w (path f)) :: started)
  end.

(** The rest of each callback runs once its upload has settled.  The
    uploads run concurrently; the model fixes one schedule, in which they
    settle in the order of the list, and a callback whose upload failed
    reads nothing. *)
Fixpoint resume_uploads (w : World) (started : list (file * (exn + jsstring)))
  : M (list (exn + uploaded)) :=
  match started with
  | [] => ret []
  | (f, r) :: more =>
      one <- attempt (secure_url <- settle r ;;
                      data <- call (ERead (path f)) (readFile w (path f)) ;;
                      ret (MkUploaded (originalname f) secure_url data)) ;;
      others <- resume_uploads w more ;;
      ret (one :: others)
  end.

(** [Promise.all]: all the values, or the first rejection. *)
Fixpoint promise_all {A} (rs : list (exn + A)) : M (list A) :=
  match rs with
  | [] => ret []
  | inl e :: _ => throw e
  | inr a :: more => l <- promise_all more ;; ret (a :: l)
  end.

Definition upload_images (w : World) (images : list file) : M (list uploaded) :=
  started <- start_uploads w images ;;
  settled <- resume_uploads w started ;;
  promise_all settled.

(** The prompt calls [description.replace], which only a string has. *)
Definition build_prompt (d : value) : M unit :=
  match d with
  | VStr _ => ret tt
  | _ => throw (TypeError (js "replace"))
  end.

(** Lines 120 to 129: the reply parsed whole, else from its first brace to
    its last. *)
Definition parse_reply (result : jsstring) : M value :=
  try_catch (json_parse result)
    (fun _ =>
       match matched (search re_object_greedy result) with
       | Some m => json_parse m
       | None => throw (Error (js "Réponse GPT invalide"))
       end).

(** The [finally] block. *)
Fixpoint unlink_files (w : World) (images : list file) : M unit :=
  match images with
  | [] => ret tt
  | f :: more =>
      try_catch (call (EUnlink (path f)) (unlink w (path f)))
        (fun _ => log Warn "Erreur suppression fichier:") ;;
      unlink_files w more
  end.

Definition cleanup (w : World) (images : option (list file)) : M unit :=
  match images with
  | Some l => unlink_files w l
  | None => ret tt
  end.

Definition missing_input (req : PostRequest) (parsed_tags : value) : bool :=
  negb (truthy (brand req)) || negb (truthy (model req))
  || negb (truthy (description req)) || negb (truthy parsed_tags)
  || match files req with
     | None => true
     | Some images => (List.length images <? 1)%nat
     end.

(** The body of the request to the persistence service, lines 144 to 150. *)
Definition post_document (req : PostRequest) (the_tags : value)
  (uploadedImages : list uploaded) : value :=
  obj [("brand", brand req); ("model", model req);
       ("description", description req); ("tags", the_tags);
       ("images", VArr (map (fun img => VStr (url img)) uploadedImages))].

Definition validatePost (w : World) (req : PostRequest) : M unit :=
  the_tags <- parse_tags (tags req) ;;
  if missing_input req the_tags then
    respond 400
      (obj [("success", VBool false);
            ("error", str "Champs requis manquants ou images non fournies.")])
  else
    let images := files req in
    try_finally
      (try_catch
         (uploadedImages <- upload_images w (match images with Some l => l | None => [] end) ;;
          build_prompt (description req) ;;
          log Info "Validation GPT..." ;;
          result <- call ECompletion (completion w) ;;
          parsed <- parse_reply result ;;
          success <- get parsed (js "success") ;;
          if negb (truthy success) then respond 400 parsed
          else
            log Info "Envoi des données au microservice BDD..." ;;
            let document := post_document req the_tags uploadedImages in
            bddResponse <- call (EPersist document (authorization req))
                             (persist w document (authorization req)) ;;
            bddResult <- settle (json bddResponse) ;;
            if negb (ok bddResponse) then
              log Severe "Erreur BDD:" ;;
              respond 500
                (obj [("success", VBool false);
                      ("error", str "Validation réussie mais échec de l'enregistrement");
                      ("details", bddResult)])
            else
              info <- get parsed (js "info") ;;
              respond 201
                (obj [("success", VBool true);
                      ("info", if truthy info then info else str "Post validé et créé");
                      ("post", bddResult)]))
         (fun err =>
            log Severe "Erreur dans validatePost:" ;;
            respond 500
              (obj [("success", VBool false);
                    ("error", str "Erreur serveur");
                    ("message", VStr (message_of w err))])))
      (cleanup w images).

(** *** validateData *)

(** The three [replace] calls and the [trim] that open [extractAndParseJSON]. *)
Definition clean (text : jsstring) : jsstring :=
  trim (replace_all re_backtick []
          (replace_all re_fence [] (replace_all re_fence_json [] text))).

Definition extractAndParseJSON (text : jsstring) : M value :=
  let cleaned := clean text in
  try_catch (json_parse cleaned)
    (fun _ =>
       match matched (search re_object_narrow cleaned) with
       | Some m => json_parse m
       | None =>
           if includes (toLowerCase cleaned) (js "success")
              && includes (toLowerCase cleaned) (js "true")
           then ret (obj [("success", VBool true)])
           else if includes (toLowerCase cleaned) (js "success")
                   && includes (toLowerCase cleaned) (js "false")
           then ret (obj [("success", VBool false)])
           else throw (Error (js "Aucun JSON valide trouvé"))
       end).

Definition validateData (w : World) (body : value) : M unit :=
  if negb (truthy body) then
    respond 400
      (obj [("success", VBool false); ("error", str "Aucune donnée fournie.")])
  else
    try_catch
      (log Info "Validation des données via GPT..." ;;
       content <- call ECompletion (completion w) ;;
       let result := trim content in
       extracted <- attempt (extractAndParseJSON result) ;;
       match extracted with
       | inl parseError =>
           log Severe "Erreur de parsing GPT:" ;;
           log Severe "Réponse GPT brute:" ;;
           respond 500
             (obj [("success", VBool false);
                   ("error", str "Erreur de validation - réponse GPT invalide");
                   ("details", VStr (message_of w parseError))])
       | inr parsed =>
           success <- get parsed (js "success") ;;
           if negb (truthy success) then
             respond 200
               (obj [("success", VBool false);
                     ("error", str "Contenu inapproprié détecté")])
           else
             respond 200
               (obj [("success", VBool true);
                     ("message", str "Données validées avec succès")])
       end)
      (fun err =>
         log Severe "Erreur dans validateData:" ;;
         respond 500
           (obj [("success", VBool false);
                 ("error", str "Erreur serveur");
                 ("message", VStr (message_of w err))])).

(** *** identifyCar *)

Definition has_path (f : option file) : bool :=
  match f with
  | Some x => match path x with [] => false | _ :: _ => true end
  | None => false
  end.

Definition unlink_quietly (w : World) (p : jsstring) (done failed : M unit) : M unit :=
  try_catch (call (EUnlink p) (unlink w p) ;; done) (fun _ => failed).

Definition identifyCar (w : World) (f : option file) : M unit :=
  try_catch
    (match f with
     | Some x =>
         if has_path f then
           let filePath := path x in
           base64Image <- call (ERead filePath) (readFile w filePath) ;;
           log Info "Envoi de l'image à l'API OpenAI pour identification" ;;
           result <- call ECompletion (completion w) ;;
           log Info "Réponse reçue de l'API OpenAI" ;;
           try_catch
             (parsed <- json_parse result ;; respond 200 parsed)
             (fun parseError =>
                log Severe "Erreur de parsing JSON:" ;;
                match matched (search re_object_greedy result) with
                | Some m =>
                    try_catch
                      (extractedJson <- json_parse m ;; respond 200 extractedJson)
                      (fun extractError =>
                         log Severe "Impossible d'extraire un JSON valide:" ;;
                         respond 500
                           (obj [("success", VBool false);
                                 ("error", str "Format de réponse invalide de l'API");
                                 ("rawResponse", VStr result)]))
                | None =>
                    respond 500
                      (obj [("success", VBool false);
                            ("error", str "Format de réponse inattendu");
                            ("rawResponse", VStr result)])
                end) ;;
           unlink_quietly w filePath
             (log Info "Fichier temporaire supprimé:")
             (log Warn "Impossible de supprimer le fichier temporaire:")
         else
           respond 400
             (obj [("success", VBool false); ("error", str "Aucune image n'a été fournie.")])
     | None =>
         respond 400
           (obj [("success", VBool false); ("error", str "Aucune image n'a été fournie.")])
     end)
    (fun err =>
       log Severe "Erreur lors de l'identification de la voiture:" ;;
       respond 500
         (obj [("success", VBool false);
               ("error", str "Erreur serveur ou image non traitable.");
               ("message", VStr (message_of w err))]) ;;
       if has_path f then
         unlink_quietly w (match f with Some x => path x | None => [] end)
           (ret tt)
           (log Warn "Impossible de supprimer le fichier temporaire après erreur:")
       else ret tt).

(** *** Reading a trace *)

Definition responses (t : list event) : list (N * value) :=
  flat_map (fun ev => match ev with ERespond s b => [(s, b)] | _ => [] end) t.

Definition unlinked (t : list event) : list jsstring :=
  flat_map (fun ev => match ev with EUnlink p => [p] | _ => [] end) t.

(** Calls to the store, the file system, the provider and the persistence
    service; logging and the response itself are not external calls. *)
Definition is_external (ev : event) : bool :=
  match ev with
  | EUpload _ | ERead _ | ECompletion | EPersist _ _ | EUnlink _ => true
  | ELog _ _ | ERespond _ _ => false
  end.

Definition external_calls (t : list event) : list event := filter is_external t.



Definition is_unlink (ev : event) : bool :=
  match ev with EUnlink _ => true | _ => false end.

Definition is_respond (ev : event) : bool :=
  match ev with ERespond _ _ => true | _ => false end.

(** [only P m]: every event of the computation [m] satisfies [P]. *)
Definition only {A} (P : event -> bool) (m : M A) : Prop :=
  Forall (fun ev => P ev = true) (trace m).

End Controller.
Export Controller.

(** ** Scenarios of the test suite *)

Module Scenario.

Definition example_object : value :=
  obj [("success", VBool true);
       ("acceptabilityScore", VNum (MkNumber false 85 0))].

Definition example_reply : jsstring :=
  jsq "Voici la réponse: {'success': true, 'acceptabilityScore': 85} avec du texte après".

Definition car1 : file := MkFile (js "/tmp/upload1.jpg") (js "car1.jpg").
Definition car2 : file := MkFile (js "/tmp/upload2.jpg") (js "car2.jpg").

Definition toyota : PostRequest :=
  MkPostRequest (str "Toyota") (str "Corolla") (str "Voiture en excellent état")
    (VArr [str "berline"; str "fiable"]) (Some [car1; car2]) (str "Bearer token").

Definition missing_fields_body : value :=
  obj [("success", VBool false);
       ("error", str "Champs requis manquants ou images non fournies.")].

(** The Toyota submission without its [brand] field, files attached. *)
Definition toyota_without_brand : PostRequest :=
  MkPostRequest VUndefined (model toyota) (description toyota) (tags toyota)
    (files toyota) (authorization toyota).

Definition rejection_reply : jsstring :=
  jsq "{'success': false, 'acceptabilityScore': 50, 'errors': ['Marque inconnue']}".

Definition rejection : value :=
  obj [("success", VBool false);
       ("acceptabilityScore", VNum (MkNumber false 50 0));
       ("errors", VArr [str "Marque inconnue"])].

Definition acceptance_reply : jsstring :=
  jsq "{'success': true, 'acceptabilityScore': 85, 'info': 'Post valide'}".

Definition persisted : value := obj [("id", VNum (MkNumber false 1 0))].

(** The mocked collaborators: every call succeeds, the provider answers
    [reply] and the persistence service answers [persisted] with the flag
    [saved]. *)
Definition mock (reply : jsstring) (saved : bool) : World :=
  MkWorld (fun _ => inr (js "http://img.com/img.jpg"))
          (fun _ => inr (js "aW1nZGF0YQ=="))
          (inr reply)
          (fun _ _ => inr (MkFetch saved (inr persisted)))
          (fun _ => inr tt)
          (fun _ => js "Unexpected token").

(** The same with a provider that fails, and with a media store that
    fails. *)
Definition mock_provider_down : World :=
  MkWorld (upload (mock [] true)) (readFile (mock [] true))
          (inl (Error (js "GPT API Error")))
          (persist (mock [] true)) (unlink (mock [] true))
          (engine_text (mock [] true)).

Definition mock_store_down : World :=
  MkWorld (fun _ => inl (Error (js "Cloudinary upload failed")))
          (readFile (mock [] true)) (completion (mock [] true))
          (persist (mock [] true)) (unlink (mock [] true))
          (engine_text (mock [] true)).

(** The same with a file system that refuses every deletion. *)
Definition mock_unlink_denied (reply : jsstring) : World :=
  MkWorld (upload (mock reply true)) (readFile (mock reply true))
          (completion (mock reply true)) (persist (mock reply true))
          (fun _ => inl (Error (js "Permission denied")))
          (engine_text (mock reply true)).

End Scenario.
Export Scenario.

(** ** The server set-up, [index.js] *)

Module Server.

(** [process.env.ALLOWED_ORIGINS?.split(',') || '*'], the [origin] option
    given to the CORS middleware; an environment variable is a string or is
    not set. *)
Definition cors_origin (ALLOWED_ORIGINS : option jsstring) : value :=
  let pieces :=
    match ALLOWED_ORIGINS with
    | Some s => VArr (map VStr (split_on 44 s))
    | None => VUndefined
    end in
  if truthy pieces then pieces else VStr (js "*").

End Server.
Export Server.

(** ** Reading a whole request *)

Module Observations.

(** The world [w] with another file system answer to deletions. *)
Definition with_unlink (w : World) (u : jsstring -> exn + unit) : World :=
  MkWorld (upload w) (readFile w) (completion w) (persist w) u (engine_text w).

Definition is_upload (ev : event) : bool :=
  match ev with EUpload _ => true | _ => false end.


(** An event that is no response, or a response with one of the statuses. *)
Definition status_among (allowed : list N) (ev : event) : bool :=
  match ev with
  | ERespond s _ => existsb (N.eqb s) allowed
  | _ => true
  end.

(** A computation that answers once if it returns and not at all if it
    throws: the shape of the body of a [try] whose [catch] answers. *)
Definition answers_or_throws {A} (m : M A) : Prop :=
  match outcome m with
  | inr _ => List.length (responses (trace m)) = 1%nat
  | inl _ => responses (trace m) = []
  end.

(** The body of the generic 500 answer of a [catch] block. *)
Definition server_error (w : World) (e : exn) : value :=
  obj [("success", VBool false);
       ("error", str "Erreur serveur");
       ("message", VStr (message_of w e))].

(** A reply in a markdown fence: the opening fence with its language tag,
    if any, white space, the text, white space, the closing fence. *)
Definition fenced (tag ws1 text ws2 : jsstring) : jsstring :=
  js "```" ++ tag ++ ws1 ++ text ++ ws2 ++ js "```".

Definition all_space (ws : jsstring) : Prop :=
  Forall (fun c => is_space c = true) ws.

(** What the callback of [images.map] comes to for one file: the rejection
    of its upload or of its read, or the uploaded image. *)
Definition settled (w : World) (f : file) : exn + uploaded :=
  match upload w (path f) with
  | inl e => inl e
  | inr secure_url =>
      match readFile w (path f) with
      | inl e => inl e
      | inr data => inr (MkUploaded (originalname f) secure_url data)
      end
  end.

(** The calls the uploads make: every upload, then a read for each upload
    that succeeded. *)
Definition upload_events (w : World) (images : list file) : list event :=
  map (fun f => EUpload (path f)) images ++
  flat_map (fun f => match upload w (path f) with
                     | inr _ => [ERead (path f)]
                     | inl _ => []
                     end) images.


End Observations.
Export Observations.

(** * Properties *)

#[local] Arguments N.eqb : simpl never.
#[local] Arguments N.leb : simpl never.
#[local] Arguments N.ltb : simpl never.
#[local] Arguments lit : simpl never.
#[local] Arguments except : simpl never.

(** ** Strings *)

Section StringFacts.

Lemma starts_with_app (p b : jsstring) : starts_with p (p ++ b) = true.
Proof.
  induction p as [|a p IH]; simpl; [reflexivity|].
  now rewrite N.eqb_refl, IH.
Qed.

Lemma starts_with_inv (p s : jsstring) :
  starts_with p s = true -> exists b, s = p ++ b.
Proof.
  revert s; induction p as [|a p IH]; intros s H.
  - now exists s.
  - destruct s as [|c s]; simpl in H; [discriminate|].
    apply andb_true_iff in H as [Hc Hs].
    apply N.eqb_eq in Hc; subst c.
    destruct (IH _ Hs) as [b ->].
    now exists b.
Qed.

Lemma includes_here (p s : jsstring) :
  starts_with p s = true -> includes s p = true.
Proof.
  intros H. destruct s; simpl; now rewrite H.
Qed.

(** [includes] says that the word occurs somewhere in the text. *)
Lemma includes_spec (s p : jsstring) :
  includes s p = true <-> exists a b, s = a ++ p ++ b.
Proof.
  split.
  - induction s as [|c s IH]; simpl; intros H.
    + rewrite orb_false_r in H.
      destruct (starts_with_inv _ _ H) as [b Hb]. now exists [], b.
    + apply orb_true_iff in H as [H|H].
      * destruct (starts_with_inv _ _ H) as [b Hb]. now exists [], b.
      * destruct (IH H) as (a & b & ->). now exists (c :: a), b.
  - intros (a & b & ->).
    induction a as [|c a IH].
    + apply includes_here. exact (starts_with_app p b).
    + simpl. simpl in IH. rewrite IH. apply orb_true_r.
Qed.

Lemma trimStart_suffix (s : jsstring) : exists ws, s = ws ++ trimStart s.
Proof.
  induction s as [|c s [ws IH]]; simpl.
  - now exists [].
  - destruct (is_space c).
    + exists (c :: ws). simpl. now rewrite <- IH.
    + now exists [].
Qed.

Lemma trimStart_In (x : char) (s : jsstring) : In x (trimStart s) -> In x s.
Proof.
  destruct (trimStart_suffix s) as [ws E]. intros H.
  rewrite E. apply in_or_app. now right.
Qed.

Lemma trimStart_head (s : jsstring) (c : char) (r : jsstring) :
  trimStart s = c :: r -> is_space c = false.
Proof.
  induction s as [|a s IH]; simpl; [discriminate|].
  destruct (is_space a) eqn:E; [exact IH|].
  intros H. injection H as -> _. exact E.
Qed.

Lemma trimStart_keep (a b : jsstring) (c : char) :
  is_space c = false -> trimStart (a ++ c :: b) = trimStart a ++ c :: b.
Proof.
  intros Hc. induction a as [|x a IH]; simpl.
  - now rewrite Hc.
  - destruct (is_space x); [exact IH | reflexivity].
Qed.

Lemma trimEnd_keep (a b : jsstring) (c : char) :
  is_space c = false -> trimEnd (a ++ c :: b) = a ++ c :: trimEnd b.
Proof.
  intros Hc. unfold trimEnd.
  rewrite rev_app_distr. simpl. rewrite <- app_assoc. simpl.
  rewrite (trimStart_keep _ _ _ Hc).
  rewrite rev_app_distr. simpl. rewrite rev_involutive, <- app_assoc.
  reflexivity.
Qed.

Lemma trimEnd_In (x : char) (s : jsstring) : In x (trimEnd s) -> In x s.
Proof.
  unfold trimEnd. intros H.
  apply in_rev in H. apply trimStart_In in H. now apply in_rev.
Qed.

(** Trimming a text that holds a word beginning and ending with a code unit
    that is no white space only trims what is around the word. *)
Lemma trim_around (pre post body : jsstring) (a z : char) :
  is_space a = false -> is_space z = false ->
  trim (pre ++ (a :: body ++ [z]) ++ post) =
  trimStart pre ++ (a :: body ++ [z]) ++ trimEnd post.
Proof.
  intros Ha Hz. unfold trim. simpl.
  rewrite (trimStart_keep _ _ _ Ha).
  assert (E : forall t, trimStart pre ++ a :: (body ++ [z]) ++ t
                       = (trimStart pre ++ a :: body) ++ z :: t).
  { intros t. rewrite <- (app_assoc body), <- (app_assoc (trimStart pre)).
    reflexivity. }
  rewrite !E. apply (trimEnd_keep _ _ _ Hz).
Qed.

(** What [trim] removes is white space, and what it leaves neither begins
    nor ends with white space. *)
Lemma trimStart_spaces (s : jsstring) :
  exists ws, s = ws ++ trimStart s /\ Forall (fun c => is_space c = true) ws.
Proof.
  induction s as [|c s (ws & IH & Hws)]; simpl.
  - now exists [].
  - destruct (is_space c) eqn:E.
    + exists (c :: ws). split; [simpl; now rewrite <- IH|now constructor].
    + now exists [].
Qed.

Lemma trim_spec (s : jsstring) :
  (exists a b, s = a ++ trim s ++ b /\
               Forall (fun c => is_space c = true) a /\
               Forall (fun c => is_space c = true) b) /\
  (forall c r, trim s = c :: r -> is_space c = false) /\
  (forall r c, trim s = r ++ [c] -> is_space c = false).
Proof.
  unfold trim, trimEnd. split; [|split].
  - destruct (trimStart_spaces s) as (a & Ha & Hsa).
    destruct (trimStart_spaces (rev (trimStart s))) as (b & Hb & Hsb).
    exists a, (rev b). split; [|split; [exact Hsa|now apply Forall_rev]].
    rewrite <- rev_app_distr, <- Hb, rev_involutive. exact Ha.
  - intros c r H.
    destruct (trimStart s) as [|c0 y] eqn:Ey; [discriminate|].
    pose proof (trimStart_head _ _ _ Ey) as Hc0.
    pose proof (trimEnd_keep [] y c0 Hc0) as Hk.
    unfold trimEnd in Hk. simpl app in Hk. rewrite Hk in H.
    now injection H as <- _.
  - intros r c H.
    apply (f_equal (@rev char)) in H.
    rewrite rev_involutive, rev_app_distr in H. simpl in H.
    exact (trimStart_head _ _ _ H).
Qed.

(** Splitting keeps the text: joining the pieces with the separator gives it
    back, and no piece holds a separator. *)
Lemma split_on_nonempty (sep : char) (s : jsstring) : split_on sep s <> [].
Proof.
  destruct s as [|c s]; simpl; [discriminate|].
  destruct (c =? sep); [discriminate|].
  destruct (split_on sep s); discriminate.
Qed.

Lemma join_split_on (sep : char) (s : jsstring) : join sep (split_on sep s) = s.
Proof.
  induction s as [|c s IH]; [reflexivity|].
  simpl. destruct (N.eqb_spec c sep) as [->|Hne].
  - pose proof (split_on_nonempty sep s) as Hn.
    destruct (split_on sep s) as [|p more]; [contradiction|].
    simpl in *. now rewrite IH.
  - pose proof (split_on_nonempty sep s) as Hn.
    destruct (split_on sep s) as [|p more]; [contradiction|].
    destruct more; simpl in *; now rewrite <- IH.
Qed.

Lemma split_on_no_sep (sep : char) (s piece : jsstring) :
  In piece (split_on sep s) -> ~ In sep piece.
Proof.
  revert piece. induction s as [|c s IH]; intros piece H.
  - simpl in H. destruct H as [<-|[]]. intros [].
  - simpl in H. destruct (N.eqb_spec c sep) as [->|Hne].
    + destruct H as [<-|H]; [intros []|now apply IH].
    + pose proof (split_on_nonempty sep s) as Hn.
      destruct (split_on sep s) as [|p more]; [contradiction|].
      destruct H as [<-|H].
      * intros [E|Hin]; [now apply Hne|].
        apply (IH p); [now left|exact Hin].
      * apply IH. now right.
Qed.

End StringFacts.

(** ** The two brace expressions *)

Section BraceMatching.

Lemma closing_inv (s m rest : jsstring) :
  closing s = Some (m, rest) -> s = 125 :: rest /\ m = [125].
Proof.
  unfold closing. destruct s as [|c s]; cbn; [discriminate|].
  unfold lit. destruct (N.eqb_spec 125 c) as [<-|]; [|discriminate].
  intros H. injection H as <- <-. now split.
Qed.

Lemma closing_none (c : char) (s : jsstring) :
  closing (c :: s) = None -> c <> 125.
Proof.
  unfold closing. cbn. unfold lit.
  destruct (N.eqb_spec 125 c) as [<-|Hne]; [discriminate|].
  intros _ E. now apply Hne.
Qed.

Lemma first_occurrence (x : char) (l : jsstring) :
  In x l -> exists l1 l2, l = l1 ++ x :: l2 /\ ~ In x l1.
Proof.
  induction l as [|c l IH]; intros H; [destruct H|].
  destruct (N.eq_dec c x) as [->|Hne].
  - exists [], l. split; [reflexivity|intros []].
  - destruct H as [E|H]; [contradiction|].
    destruct (IH H) as (l1 & l2 & -> & Hn).
    exists (c :: l1), l2. split; [reflexivity|].
    intros [E|Hin]; [now apply Hne|now apply Hn].
Qed.

Lemma last_occurrence (x : char) (l : jsstring) :
  In x l -> exists l1 l2, l = l1 ++ x :: l2 /\ ~ In x l2.
Proof.
  induction l as [|c l IH]; intros H; [destruct H|].
  destruct (in_dec N.eq_dec x l) as [Hin|Hout].
  - destruct (IH Hin) as (l1 & l2 & -> & Hn).
    now exists (c :: l1), l2.
  - destruct H as [->|H]; [|contradiction].
    now exists [], l.
Qed.

(** Whatever the class under the star, a match ends at a closing brace. *)
Lemma star_closing_inv (p : char -> bool) (s m rest : jsstring) :
  star p closing s = Some (m, rest) ->
  exists body, s = body ++ 125 :: rest /\ m = body ++ [125].
Proof.
  revert m rest. induction s as [|c s IH]; intros m rest H.
  - simpl in H. discriminate.
  - simpl in H. destruct (p c).
    + destruct (star p closing s) as [[m' rest']|] eqn:E.
      * injection H as <- <-.
        destruct (IH _ _ eq_refl) as (body & -> & ->).
        now exists (c :: body).
      * apply closing_inv in H as [-> ->]. now exists [].
    + apply closing_inv in H as [-> ->]. now exists [].
Qed.

(** A star whose class only refuses the closing brace fails exactly on the
    texts that have none. *)
Lemma star_closing_none (p : char -> bool) (s : jsstring) :
  (forall c, p c = false -> c = 125) ->
  star p closing s = None -> ~ In 125 s.
Proof.
  intros Hp. induction s as [|c s IH]; intros H; [intros []|].
  simpl in H. destruct (p c) eqn:Ec.
  - destruct (star p closing s) as [[m' rest']|] eqn:E; [discriminate|].
    apply closing_none in H.
    intros [E1|Hin]; [now apply H|now apply IH].
  - apply Hp in Ec. subst c. discriminate.
Qed.

Lemma star_no_closing (p : char -> bool) (s : jsstring) :
  ~ In 125 s -> star p closing s = None.
Proof.
  induction s as [|c s IH]; intros Hn; [reflexivity|].
  assert (Hc : closing (c :: s) = None).
  { unfold closing. simpl. unfold lit.
    destruct (N.eqb_spec 125 c) as [<-|]; [|reflexivity].
    exfalso. apply Hn. now left. }
  simpl. rewrite IH by (intros Hin; apply Hn; now right).
  rewrite Hc. now destruct (p c).
Qed.

(** [[^}]*\}] stops at the next closing brace. *)
Lemma narrow_star_found (body rest : jsstring) :
  ~ In 125 body ->
  star (except 125) closing (body ++ 125 :: rest) = Some (body ++ [125], rest).
Proof.
  induction body as [|c body IH]; intros Hn; simpl.
  - reflexivity.
  - rewrite IH by (intros Hin; apply Hn; now right).
    unfold except. destruct (N.eqb_spec c 125) as [->|]; [|reflexivity].
    exfalso. apply Hn. now left.
Qed.


(** [[\s\S]*\}] runs to the last closing brace. *)
Lemma greedy_star_found (body rest : jsstring) :
  ~ In 125 rest ->
  star any closing (body ++ 125 :: rest) = Some (body ++ [125], rest).
Proof.
  intros Hn. induction body as [|c body IH]; simpl.
  - now rewrite (star_no_closing any rest Hn).
  - now rewrite IH.
Qed.


Lemma braces_here (p : char -> bool) (s : jsstring) :
  match_here (braces p) (123 :: s) =
  match star p closing s with
  | Some (m, rest) => Some (123 :: m, rest)
  | None => None
  end.
Proof. reflexivity. Qed.

Lemma braces_not_here (p : char -> bool) (c : char) (s : jsstring) :
  c <> 123 -> match_here (braces p) (c :: s) = None.
Proof.
  intros Hne. simpl. unfold lit.
  destruct (N.eqb_spec 123 c) as [E|]; [|reflexivity].
  now elim Hne.
Qed.

Lemma search_cons (re : regex) (c : char) (s : jsstring) :
  search re (c :: s) =
  match match_here re (c :: s) with
  | Some (m, rest) => Some ([], m, rest)
  | None =>
      match search re s with
      | Some (pre, m, post) => Some (c :: pre, m, post)
      | None => None
      end
  end.
Proof. reflexivity. Qed.

Lemma search_braces_found (p : char -> bool) (pre s m rest : jsstring) :
  ~ In 123 pre -> star p closing s = Some (m, rest) ->
  search (braces p) (pre ++ 123 :: s) = Some (pre, 123 :: m, rest).
Proof.
  intros Hn Hs. induction pre as [|c pre IH].
  - simpl app. now rewrite search_cons, braces_here, Hs.
  - assert (Hc : c <> 123) by (intros ->; apply Hn; now left).
    simpl app. rewrite search_cons, (braces_not_here p c _ Hc).
    now rewrite IH by (intros Hin; apply Hn; now right).
Qed.

Lemma search_braces_inv (p : char -> bool) (s pre m post : jsstring) :
  (forall c, p c = false -> c = 125) ->
  search (braces p) s = Some (pre, m, post) ->
  exists s' m', s = pre ++ 123 :: s' /\ m = 123 :: m' /\
                star p closing s' = Some (m', post) /\ ~ In 123 pre.
Proof.
  intros Hp. revert pre. induction s as [|c s IH]; intros pre H.
  - simpl in H. discriminate.
  - destruct (N.eq_dec c 123) as [->|Hne].
    + rewrite search_cons, braces_here in H.
      destruct (star p closing s) as [[m' rest']|] eqn:E.
      * injection H as <- <- <-. exists s, m'. repeat split; auto.
      * exfalso.
        destruct (search (braces p) s) as [[[pre1 m1] post1]|] eqn:E1;
          [|discriminate].
        injection H as <- <- <-.
        destruct (IH _ eq_refl) as (s' & m' & -> & _ & Hs & _).
        destruct (star_closing_inv _ _ _ _ Hs) as (body & -> & _).
        apply (star_closing_none p _ Hp E).
        apply in_or_app. right. right. apply in_or_app. right. now left.
    + rewrite search_cons, (braces_not_here p c s Hne) in H.
      destruct (search (braces p) s) as [[[pre1 m1] post1]|] eqn:E1;
        [|discriminate].
      injection H as <- <- <-.
      destruct (IH _ eq_refl) as (s' & m' & -> & -> & Hs & Hn).
      exists s', m'. repeat split; auto.
      intros [E|Hin]; [now apply Hne|now apply Hn].
Qed.

(** The narrow expression: from the first opening brace to the next closing
    brace. *)
Lemma search_narrow_found (pre body post : jsstring) :
  ~ In 123 pre -> ~ In 125 body ->
  search re_object_narrow (pre ++ (123 :: body ++ [125]) ++ post)
  = Some (pre, 123 :: body ++ [125], post).
Proof.
  intros Hp Hb.
  replace (pre ++ (123 :: body ++ [125]) ++ post)
    with (pre ++ 123 :: (body ++ 125 :: post))
    by (simpl; now rewrite <- app_assoc).
  apply (search_braces_found (except 125)); [exact Hp|].
  now apply narrow_star_found.
Qed.


(** The greedy expression: from the first opening brace to the last closing
    brace. *)
Lemma search_greedy_found (pre body post : jsstring) :
  ~ In 123 pre -> ~ In 125 post ->
  search re_object_greedy (pre ++ (123 :: body ++ [125]) ++ post)
  = Some (pre, 123 :: body ++ [125], post).
Proof.
  intros Hp Hb.
  replace (pre ++ (123 :: body ++ [125]) ++ post)
    with (pre ++ 123 :: (body ++ 125 :: post))
    by (simpl; now rewrite <- app_assoc).
  apply (search_braces_found any); [exact Hp|].
  now apply greedy_star_found.
Qed.


(** A text without an opening brace followed by a closing one has no match,
    for either expression. *)
Lemma search_braces_none (p : char -> bool) (s : jsstring) :
  (forall c, p c = false -> c = 125) ->
  (forall a b c : jsstring, s <> a ++ (123 :: b ++ [125]) ++ c) ->
  search (braces p) s = None.
Proof.
  intros Hp Hs.
  destruct (search (braces p) s) as [[[pre m] post]|] eqn:E; [|reflexivity].
  exfalso.
  apply (search_braces_inv p) in E as (s' & m' & -> & -> & Hm & _); [|exact Hp].
  apply star_closing_inv in Hm as (body & -> & ->).
  apply (Hs pre body post). simpl. now rewrite <- app_assoc.
Qed.

End BraceMatching.

(** ** Cleaning the reply *)

Section Cleaning.

Lemma replace_from_no_match (p : char -> bool) (re : regex) (rep s : jsstring) :
  (forall c, In c s -> p c = false) ->
  replace_from (One p :: re) rep 0 s = s.
Proof.
  induction s as [|c s IH]; intros H; [reflexivity|].
  simpl. rewrite (H c) by now left.
  f_equal. apply IH. intros x Hx. apply H. now right.
Qed.

Lemma replace_all_no_tick (re : regex) (s : jsstring) :
  ~ In 96 s -> replace_all (One (lit 96) :: re) [] s = s.
Proof.
  intros Hn. apply replace_from_no_match.
  intros c Hc. unfold lit.
  destruct (N.eqb_spec 96 c) as [<-|]; [contradiction|reflexivity].
Qed.

(** A reply without a backtick is only trimmed. *)
Lemma clean_no_tick (text : jsstring) : ~ In 96 text -> clean text = trim text.
Proof.
  intros Hn. unfold clean.
  change re_fence_json with (One (lit 96) :: tl re_fence_json).
  change re_fence with (One (lit 96) :: tl re_fence).
  change re_backtick with (One (lit 96) :: tl re_backtick).
  now rewrite 3 (replace_all_no_tick _ text Hn).
Qed.

(** A code unit that no class of an expression accepts stops every match of
    it: the match is the same whatever follows that code unit. *)
Lemma star_barrier (c : char) (b : jsstring) (p : char -> bool)
  (k k' : jsstring -> option (jsstring * jsstring)) :
  p c = false ->
  (forall x, k (x ++ c :: b)
             = match k' x with
               | Some (m, rest) => Some (m, rest ++ c :: b)
               | None => None
               end) ->
  forall x, star p k (x ++ c :: b)
            = match star p k' x with
              | Some (m, rest) => Some (m, rest ++ c :: b)
              | None => None
              end.
Proof.
  intros Hc Hk. induction x as [|d x IH].
  - simpl. rewrite Hc. apply (Hk []).
  - simpl. destruct (p d); [|apply (Hk (d :: x))].
    rewrite IH. destruct (star p k' x) as [[m rest]|]; [reflexivity|].
    apply (Hk (d :: x)).
Qed.

Lemma match_here_barrier (c : char) (b : jsstring) (re : regex) :
  Forall (fun it => match it with One p | Star p => p c = false end) re ->
  forall x, match_here re (x ++ c :: b)
            = match match_here re x with
              | Some (m, rest) => Some (m, rest ++ c :: b)
              | None => None
              end.
Proof.
  induction 1 as [|it re Hit Hre IH]; intros x; [reflexivity|].
  destruct it as [p|p].
  - destruct x as [|d x]; simpl; [now rewrite Hit|].
    destruct (p d); [|reflexivity].
    rewrite IH. now destruct (match_here re x) as [[m rest]|].
  - simpl. now apply star_barrier.
Qed.

(** A match is a prefix of the text. *)
Lemma star_split (p : char -> bool)
  (k : jsstring -> option (jsstring * jsstring)) :
  (forall s m rest, k s = Some (m, rest) -> s = m ++ rest) ->
  forall s m rest, star p k s = Some (m, rest) -> s = m ++ rest.
Proof.
  intros Hk. induction s as [|d s IH]; intros m rest H; simpl in H.
  - now apply Hk.
  - destruct (p d); [|now apply Hk].
    destruct (star p k s) as [[m' rest']|] eqn:E; [|now apply Hk].
    injection H as <- <-. simpl. f_equal. now apply IH.
Qed.

Lemma match_here_split (re : regex) (s m rest : jsstring) :
  match_here re s = Some (m, rest) -> s = m ++ rest.
Proof.
  revert s m rest. induction re as [|it re IH]; intros s m rest H.
  - simpl in H. now injection H as <- <-.
  - destruct it as [p|p].
    + destruct s as [|d s]; simpl in H; [discriminate|].
      destruct (p d); [|discriminate].
      destruct (match_here re s) as [[m' rest']|] eqn:E; [|discriminate].
      injection H as <- <-. simpl. f_equal. now apply IH.
    + simpl in H. revert H. apply star_split. exact IH.
Qed.

(** One step of the replacement at a position where no match is being
    dropped. *)
Lemma replace_from_here (re : regex) (rep : jsstring) (d : char) (s : jsstring) :
  replace_from re rep 0 (d :: s)
  = match match_here re (d :: s) with
    | Some ([], _) => rep ++ d :: replace_from re rep 0 s
    | Some (_ :: m, _) => rep ++ replace_from re rep (List.length m) s
    | None => d :: replace_from re rep 0 s
    end.
Proof.
  simpl. destruct (match_here re (d :: s)) as [[[|x m] rest]|]; reflexivity.
Qed.

(** So a replacement by nothing works on each side of such a code unit
    apart, when the expression begins with a class taken once. *)
Lemma replace_from_barrier (p : char -> bool) (re : regex) (c : char)
  (b : jsstring) :
  Forall (fun it => match it with One p | Star p => p c = false end)
         (One p :: re) ->
  forall (x : jsstring) (skip : nat),
    (skip <= List.length x)%nat ->
    replace_from (One p :: re) [] skip (x ++ c :: b)
    = replace_from (One p :: re) [] skip x
      ++ c :: replace_from (One p :: re) [] 0 b.
Proof.
  intros Hre. induction x as [|d x IH]; intros skip Hs.
  - assert (skip = 0%nat) as -> by (simpl in Hs; lia).
    inversion Hre as [|it l Hc _]; subst.
    simpl. now rewrite Hc.
  - destruct skip as [|k]; [|simpl; apply IH; simpl in Hs; lia].
    change ((d :: x) ++ c :: b) with (d :: (x ++ c :: b)).
    rewrite 2 replace_from_here.
    change (d :: (x ++ c :: b)) with ((d :: x) ++ c :: b).
    rewrite (match_here_barrier c b _ Hre).
    destruct (match_here (One p :: re) (d :: x)) as [[[|y m] rest]|] eqn:E.
    + simpl. f_equal. apply IH. lia.
    + simpl. apply IH.
      apply match_here_split in E. apply (f_equal (@List.length char)) in E.
      simpl in E. rewrite length_app in E. lia.
    + simpl. f_equal. apply IH. lia.
Qed.

(** A replacement by nothing only removes code units. *)
Lemma replace_from_In (re : regex) (y : char) (s : jsstring) :
  forall skip, In y (replace_from re [] skip s) -> In y s.
Proof.
  induction s as [|d s IH]; intros skip H.
  - destruct skip; simpl in H; [|exact H].
    now destruct (match_here re []) as [[m rest]|].
  - destruct skip as [|k]; [|right; exact (IH _ H)].
    rewrite replace_from_here in H.
    destruct (match_here re (d :: s)) as [[[|x m] rest]|]; simpl in H.
    + destruct H as [<-|H]; [now left|right; exact (IH _ H)].
    + right. exact (IH _ H).
    + destruct H as [<-|H]; [now left|right; exact (IH _ H)].
Qed.

(** The braces of an object are such code units for the three expressions
    of the cleaning: the text before the object, the inside of the object
    and the text after it are cleaned apart. *)
Lemma replace_all_around (p : char -> bool) (re : regex)
  (pre body post : jsstring) :
  Forall (fun it => match it with One p | Star p => p 123 = false end)
         (One p :: re) ->
  Forall (fun it => match it with One p | Star p => p 125 = false end)
         (One p :: re) ->
  replace_all (One p :: re) [] (pre ++ (123 :: body ++ [125]) ++ post)
  = replace_all (One p :: re) [] pre
    ++ (123 :: replace_all (One p :: re) [] body ++ [125])
    ++ replace_all (One p :: re) [] post.
Proof.
  intros Ho Hc. unfold replace_all.
  replace (pre ++ (123 :: body ++ [125]) ++ post)
    with (pre ++ 123 :: (body ++ 125 :: post))
    by (simpl; now rewrite <- app_assoc).
  rewrite (replace_from_barrier _ _ _ _ Ho) by apply Nat.le_0_l.
  rewrite (replace_from_barrier _ _ _ _ Hc) by apply Nat.le_0_l.
  simpl. now rewrite <- app_assoc.
Qed.

(** Cleaning a text that holds an object: the object keeps its braces, its
    inside is cleaned as it is when the object stands alone, and the text
    around it only loses code units. *)
Lemma clean_around (pre body post : jsstring) :
  exists pre' body' post' : jsstring,
    clean (pre ++ (123 :: body ++ [125]) ++ post)
    = trimStart pre' ++ (123 :: body' ++ [125]) ++ trimEnd post' /\
    clean (123 :: body ++ [125]) = 123 :: body' ++ [125] /\
    (forall x, In x pre' -> In x pre) /\
    (forall x, In x body' -> In x body).
Proof.
  assert (A : forall re, In re [re_fence_json; re_fence; re_backtick] ->
              forall a m z : jsstring,
                replace_all re [] (a ++ (123 :: m ++ [125]) ++ z)
                = replace_all re [] a
                  ++ (123 :: replace_all re [] m ++ [125])
                  ++ replace_all re [] z).
  { intros re [<-|[<-|[<-|[]]]] a m z;
      apply replace_all_around; repeat constructor. }
  pose (strip := fun s : jsstring =>
          replace_all re_backtick []
            (replace_all re_fence [] (replace_all re_fence_json [] s))).
  assert (S : forall a m z : jsstring,
              strip (a ++ (123 :: m ++ [125]) ++ z)
              = strip a ++ (123 :: strip m ++ [125]) ++ strip z).
  { intros a m z. unfold strip.
    rewrite (A re_fence_json), (A re_fence), (A re_backtick);
      simpl; auto. }
  assert (I : forall x s, In x (strip s) -> In x s).
  { intros x s H. unfold strip, replace_all in H.
    now do 3 apply replace_from_In in H. }
  exists (strip pre), (strip body), (strip post). split; [|split; [|split]].
  - unfold clean. fold (strip (pre ++ (123 :: body ++ [125]) ++ post)).
    rewrite S. now apply trim_around.
  - unfold clean.
    replace (123 :: body ++ [125]) with ([] ++ (123 :: body ++ [125]) ++ [])
      at 1 by (simpl; now rewrite app_nil_r).
    fold (strip ([] ++ (123 :: body ++ [125]) ++ [])).
    rewrite S.
    rewrite (trim_around _ _ _ 123 125 eq_refl eq_refl).
    change (strip []) with (@nil char). simpl. now rewrite app_nil_r.
  - intros x. apply I.
  - intros x. apply I.
Qed.

Lemma no_opening_brace (s : jsstring) :
  existsb (N.eqb 123) s = false ->
  forall a b c : jsstring, s <> a ++ (123 :: b ++ [125]) ++ c.
Proof.
  intros H a b c E.
  assert (Hin : existsb (N.eqb 123) s = true).
  { apply existsb_exists. exists 123. split; [|apply N.eqb_refl].
    rewrite E. apply in_or_app. right. now left. }
  congruence.
Qed.

End Cleaning.

(** ** The fallback chains of the two extractors *)

Section Extraction.

Lemma try_catch_ret {A} (a : A) (h : exn -> M A) : try_catch (ret a) h = ret a.
Proof. reflexivity. Qed.

Lemma try_catch_throw {A} (e : exn) (h : exn -> M A) :
  try_catch (throw e) h = h e.
Proof. unfold try_catch, throw. now destruct (h e). Qed.

Lemma json_parse_some (text : jsstring) (v : value) :
  JSON_parse text = Some v -> json_parse text = ret v.
Proof. unfold json_parse. now intros ->. Qed.

Lemma json_parse_none (text : jsstring) :
  JSON_parse text = None -> json_parse text = throw (SyntaxError text).
Proof. unfold json_parse. now intros ->. Qed.

Lemma json_parse_trace (text : jsstring) : trace (json_parse text) = [].
Proof. unfold json_parse. now destruct (JSON_parse text). Qed.

(** The media flow: step one, and what is left when it fails. *)
Lemma parse_reply_direct (result : jsstring) (v : value) :
  JSON_parse result = Some v -> parse_reply result = ret v.
Proof.
  intros H. unfold parse_reply. now rewrite (json_parse_some _ _ H).
Qed.

Lemma parse_reply_fallback (result : jsstring) :
  JSON_parse result = None ->
  parse_reply result =
  match matched (search re_object_greedy result) with
  | Some m => json_parse m
  | None => throw (Error (js "Réponse GPT invalide"))
  end.
Proof.
  intros H. unfold parse_reply.
  now rewrite (json_parse_none _ H), try_catch_throw.
Qed.

(** The plain-data flow: step two, and what is left when it fails. *)
Lemma extract_direct (text : jsstring) (v : value) :
  JSON_parse (clean text) = Some v -> extractAndParseJSON text = ret v.
Proof.
  intros H. unfold extractAndParseJSON. now rewrite (json_parse_some _ _ H).
Qed.

Lemma extract_fallback (text : jsstring) :
  JSON_parse (clean text) = None ->
  extractAndParseJSON text =
  match matched (search re_object_narrow (clean text)) with
  | Some m => json_parse m
  | None =>
      if includes (toLowerCase (clean text)) (js "success")
         && includes (toLowerCase (clean text)) (js "true")
      then ret (obj [("success", VBool true)])
      else if includes (toLowerCase (clean text)) (js "success")
              && includes (toLowerCase (clean text)) (js "false")
      then ret (obj [("success", VBool false)])
      else throw (Error (js "Aucun JSON valide trouvé"))
  end.
Proof.
  intros H. unfold extractAndParseJSON.
  now rewrite (json_parse_none _ H), try_catch_throw.
Qed.

Lemma parse_reply_trace (result : jsstring) : trace (parse_reply result) = [].
Proof.
  destruct (JSON_parse result) as [v|] eqn:E.
  - now rewrite (parse_reply_direct _ _ E).
  - rewrite (parse_reply_fallback _ E).
    destruct (matched (search re_object_greedy result));
      [apply json_parse_trace|reflexivity].
Qed.

Lemma extract_trace (text : jsstring) : trace (extractAndParseJSON text) = [].
Proof.
  destruct (JSON_parse (clean text)) as [v|] eqn:E.
  - now rewrite (extract_direct _ _ E).
  - rewrite (extract_fallback _ E).
    destruct (matched (search re_object_narrow (clean text)));
      [apply json_parse_trace|].
    now repeat match goal with |- context [if ?b then _ else _] => destruct b end.
Qed.

(** A text that is one brace-delimited word is its own match, for both
    expressions, so both extractors give it the outcome of its parse. *)
Lemma parse_reply_object (body : jsstring) :
  parse_reply (123 :: body ++ [125]) = json_parse (123 :: body ++ [125]).
Proof.
  destruct (JSON_parse (123 :: body ++ [125])) as [v|] eqn:E.
  - now rewrite (parse_reply_direct _ _ E), (json_parse_some _ _ E).
  - rewrite (parse_reply_fallback _ E).
    pose proof (search_greedy_found [] body [] (fun x => x) (fun x => x)) as H.
    rewrite app_nil_r in H. simpl app in H. now rewrite H.
Qed.

Lemma clean_object (body : jsstring) :
  ~ In 96 body -> clean (123 :: body ++ [125]) = 123 :: body ++ [125].
Proof.
  intros Hn. rewrite clean_no_tick.
  - pose proof (trim_around [] [] body 123 125 eq_refl eq_refl) as H.
    cbn [app trimStart trimEnd rev] in H.
    now rewrite app_nil_r in H.
  - intros [E|Hin]; [discriminate|].
    apply in_app_or in Hin as [Hin|[E|[]]]; [contradiction|discriminate].
Qed.

(** A text that cleaning turns into one brace-delimited word without an
    inner closing brace has the outcome of the parse of that word. *)
Lemma extract_cleaned_object (text body : jsstring) :
  clean text = 123 :: body ++ [125] -> ~ In 125 body ->
  extractAndParseJSON text = json_parse (123 :: body ++ [125]).
Proof.
  intros Hc Hb.
  destruct (JSON_parse (clean text)) as [v|] eqn:E.
  - rewrite (extract_direct _ _ E). rewrite Hc in E.
    now rewrite (json_parse_some _ _ E).
  - rewrite (extract_fallback _ E), Hc.
    pose proof (search_narrow_found [] body [] (fun x => x) Hb) as H.
    rewrite app_nil_r in H. simpl app in H. now rewrite H.
Qed.

End Extraction.

(** ** The extractor of the plain-data flow stops at a brace match *)

Section SubstringParse.

(** Once the narrow expression has matched, the outcome of parsing the match
    is the outcome of the extraction: the keyword test of the lines below is
    not reached, whatever the text holds. *)
Lemma extract_stops_at_match (text pre m post : jsstring) :
  JSON_parse (clean text) = None ->
  search re_object_narrow (clean text) = Some (pre, m, post) ->
  extractAndParseJSON text = json_parse m.
Proof.
  intros Hd Hm. rewrite (extract_fallback _ Hd). now rewrite Hm.
Qed.

(** C1 (the code departs from the specification).  The reply [{success: true}] does
    not parse, the narrow expression matches all of it, the match does not
    parse either, and the extraction ends there with the [SyntaxError]: the
    keyword step is not tried although the text holds both [success] and
    [true], and the plain-data handler answers 500. *)
Theorem extract_aborts_at_substring_parse :
  let text := js "{success: true}" in
  JSON_parse (clean text) = None /\
  matched (search re_object_narrow (clean text)) = Some text /\
  JSON_parse text = None /\
  includes (toLowerCase (clean text)) (js "success") = true /\
  includes (toLowerCase (clean text)) (js "true") = true /\
  extractAndParseJSON text = throw (SyntaxError text) /\
  responses (trace (validateData (mock text true)
                      (obj [("username", str "testuser")])))
  = [(500, obj [("success", VBool false);
                ("error", str "Erreur de validation - réponse GPT invalide");
                ("details", str "Unexpected token")])].
Proof.
  cbv zeta. repeat split; vm_compute; reflexivity.
Qed.

End SubstringParse.

(** ** Which strategy each flow uses *)

Section Strategies.

(** C3.  In the plain-data flow a reply that does not parse whole is read
    from its first opening brace to the next closing brace; in the media
    flow from its first opening brace to its last closing brace.  Without
    such a substring the plain-data flow falls back on the keywords, while
    the media flow fails with its invalid-reply error even when the
    keywords are there. *)
Theorem brace_strategy_per_flow :
  (forall text pre body post : jsstring,
      clean text = pre ++ (123 :: body ++ [125]) ++ post ->
      ~ In 123 pre -> ~ In 125 body ->
      JSON_parse (clean text) = None ->
      extractAndParseJSON text = json_parse (123 :: body ++ [125]))
  /\
  (forall result pre body post : jsstring,
      result = pre ++ (123 :: body ++ [125]) ++ post ->
      ~ In 123 pre -> ~ In 125 post ->
      JSON_parse result = None ->
      parse_reply result = json_parse (123 :: body ++ [125]))
  /\
  (forall text,
      JSON_parse (clean text) = None ->
      (forall a b c : jsstring, clean text <> a ++ (123 :: b ++ [125]) ++ c) ->
      includes (toLowerCase (clean text)) (js "success") = true ->
      includes (toLowerCase (clean text)) (js "true") = true ->
      extractAndParseJSON text = ret (obj [("success", VBool true)]))
  /\
  (forall result,
      JSON_parse result = None ->
      (forall a b c : jsstring, result <> a ++ (123 :: b ++ [125]) ++ c) ->
      parse_reply result = throw (Error (js "Réponse GPT invalide"))).
Proof.
  repeat split.
  - intros text pre body post E Hp Hb Hd.
    rewrite (extract_fallback _ Hd), E.
    now rewrite (search_narrow_found pre body post Hp Hb).
  - intros result pre body post -> Hp Hb Hd.
    rewrite (parse_reply_fallback _ Hd).
    now rewrite (search_greedy_found pre body post Hp Hb).
  - intros text Hd Hn Hs Ht.
    rewrite (extract_fallback _ Hd).
    change re_object_narrow with (braces (except 125)).
    rewrite search_braces_none; [now rewrite Hs, Ht| |exact Hn].
    intros c Hc. unfold except in Hc.
    now apply negb_false_iff, N.eqb_eq in Hc.
  - intros result Hd Hn.
    rewrite (parse_reply_fallback _ Hd).
    change re_object_greedy with (braces any).
    rewrite search_braces_none; [reflexivity|discriminate|exact Hn].
Qed.

Lemma brace_strategy_per_flow_witness :
  extractAndParseJSON (jsq "a {'x': {'success': true} } b")
    = json_parse (jsq "{'x': {'success': true}")
  /\ parse_reply (jsq "a {'x': {'success': true} } b")
    = json_parse (jsq "{'x': {'success': true} }")
  /\ extractAndParseJSON (js "Success: TRUE") = ret (obj [("success", VBool true)])
  /\ parse_reply (js "Success: TRUE") = throw (Error (js "Réponse GPT invalide")).
Proof.
  destruct brace_strategy_per_flow as (Hn & Hg & Hk & Hf).
  split; [|split; [|split]].
  - apply (Hn (jsq "a {'x': {'success': true} } b") (js "a ")
              (jsq "'x': {'success': true") (js " } b"));
      [reflexivity| | |reflexivity];
      (intros H; vm_compute in H; intuition discriminate).
  - apply (Hg (jsq "a {'x': {'success': true} } b") (js "a ")
              (jsq "'x': {'success': true} ") (js " b"));
      [reflexivity| | |reflexivity];
      (intros H; vm_compute in H; intuition discriminate).
  - apply (Hk (js "Success: TRUE")); try reflexivity.
    now apply no_opening_brace.
  - apply (Hf (js "Success: TRUE")); try reflexivity.
    now apply no_opening_brace.
Defined.

End Strategies.

(** ** The keyword step *)

Section Keywords.

(** C4, as stated, fails: a reply without braces that holds [success],
    [false] and [true] is read as an acceptance, the [true] test coming
    first; and a reply that is valid JSON as a whole, here a quoted text, is
    that JSON value, keywords or not. *)
Lemma keywords_prefer_true :
  let text := js "success: false, not true" in
  JSON_parse (clean text) = None /\
  (forall a b c : jsstring, clean text <> a ++ (123 :: b ++ [125]) ++ c) /\
  includes (toLowerCase (clean text)) (js "success") = true /\
  includes (toLowerCase (clean text)) (js "false") = true /\
  extractAndParseJSON text = ret (obj [("success", VBool true)]) /\
  extractAndParseJSON text <> ret (obj [("success", VBool false)]) /\
  extractAndParseJSON (jsq "'success true'") = ret (str "success true").
Proof.
  cbv zeta. split; [|split; [|split; [|split; [|split; [|split]]]]];
    try (vm_compute; reflexivity).
  - now apply no_opening_brace.
  - vm_compute. discriminate.
Qed.

(** C4, amended.  When the cleaned reply is not valid JSON and has no
    opening brace followed by a closing one, the extractor answers
    [{success: true}] if the text holds the words [success] and [true] in
    any case, and [{success: false}] if it holds [success] and [false] but
    not [true]. *)
Theorem keywords_recover_flag (text : jsstring) :
  JSON_parse (clean text) = None ->
  (forall a b c : jsstring, clean text <> a ++ (123 :: b ++ [125]) ++ c) ->
  (exists a b, toLowerCase (clean text) = a ++ js "success" ++ b) ->
  ((exists a b, toLowerCase (clean text) = a ++ js "true" ++ b) ->
   extractAndParseJSON text = ret (obj [("success", VBool true)]))
  /\
  ((exists a b, toLowerCase (clean text) = a ++ js "false" ++ b) ->
   ~ (exists a b, toLowerCase (clean text) = a ++ js "true" ++ b) ->
   extractAndParseJSON text = ret (obj [("success", VBool false)])).
Proof.
  intros Hd Hn Hs.
  apply includes_spec in Hs.
  assert (Hm : matched (search re_object_narrow (clean text)) = None).
  { change re_object_narrow with (braces (except 125)).
    rewrite search_braces_none; [reflexivity| |exact Hn].
    intros c Hc. unfold except in Hc.
    now apply negb_false_iff, N.eqb_eq in Hc. }
  rewrite (extract_fallback _ Hd), Hm, Hs.
  split.
  - intros Ht. apply includes_spec in Ht. now rewrite Ht.
  - intros Hf Ht. apply includes_spec in Hf.
    destruct (includes (toLowerCase (clean text)) (js "true")) eqn:E.
    + exfalso. apply Ht. now apply includes_spec.
    + now rewrite Hf.
Qed.

Lemma keywords_recover_flag_witness :
  extractAndParseJSON (js "Success = TRUE") = ret (obj [("success", VBool true)])
  /\ extractAndParseJSON (js "success: False") = ret (obj [("success", VBool false)]).
Proof.
  split.
  - apply (keywords_recover_flag (js "Success = TRUE")).
    + reflexivity.
    + now apply no_opening_brace.
    + exists [], (js " = true"). reflexivity.
    + exists (js "success = "), []. reflexivity.
  - apply (keywords_recover_flag (js "success: False")).
    + reflexivity.
    + now apply no_opening_brace.
    + exists [], (js ": false"). reflexivity.
    + exists (js "success: "), []. reflexivity.
    + intros H. apply includes_spec in H. vm_compute in H. discriminate.
Defined.

End Keywords.

(** ** Prose around the object *)

Section Prose.

(** C5, as stated, fails.  Prose that holds braces of its own changes what
    both expressions match, and neither extractor finds the object; prose
    that makes the whole text valid JSON, here brackets, is parsed with the
    object; and in the plain-data flow an object with an inner closing brace
    is cut short. *)
Lemma prose_with_braces_breaks_extraction :
  let o := jsq "{'success': true}" in
  let wrapped := js "Format {json} : " ++ o ++ js " fin" in
  let nested := jsq "{'success': true, 'scores': {'global': 85}}" in
  parse_reply o = ret (obj [("success", VBool true)]) /\
  parse_reply wrapped <> parse_reply o /\
  extractAndParseJSON o = ret (obj [("success", VBool true)]) /\
  extractAndParseJSON wrapped <> extractAndParseJSON o /\
  parse_reply (js "[" ++ o ++ js "]") = ret (VArr [obj [("success", VBool true)]]) /\
  extractAndParseJSON (js "Voici : " ++ nested ++ js " fin")
    <> extractAndParseJSON nested.
Proof.
  cbv zeta. split; [|split; [|split; [|split; [|split]]]];
    try (vm_compute; reflexivity); vm_compute; discriminate.
Qed.

(** C5, amended.  Let the object text run from an opening to a closing
    brace, with prose before it that has no opening brace, and let the
    wrapped text not be valid JSON as a whole.  The media extractor gives
    the wrapped text the outcome of the bare object when the prose after it
    has no closing brace; the plain-data extractor does when the object has
    no closing brace inside, backticks and fences in the prose or in the
    object included.  The reply of the example is read as its object by
    both. *)
Theorem extraction_ignores_plain_prose (pre body post : jsstring) :
  let o := 123 :: body ++ [125] in
  let wrapped := pre ++ o ++ post in
  ~ In 123 pre ->
  (~ In 125 post -> JSON_parse wrapped = None ->
   parse_reply wrapped = parse_reply o)
  /\
  (~ In 125 body -> JSON_parse (clean wrapped) = None ->
   extractAndParseJSON wrapped = extractAndParseJSON o)
  /\
  (parse_reply example_reply = ret example_object /\
   extractAndParseJSON example_reply = ret example_object).
Proof.
  cbv zeta. intros Hp. split; [|split].
  - intros Hq Hd.
    rewrite (parse_reply_fallback _ Hd), parse_reply_object.
    now rewrite (search_greedy_found pre body post Hp Hq).
  - intros Hb Hd.
    destruct (clean_around pre body post)
      as (pre' & body' & post' & Hw & Ho & Hpre & Hbody).
    assert (Hb' : ~ In 125 body') by (intros H; apply Hb, Hbody, H).
    assert (Hp' : ~ In 123 (trimStart pre'))
      by (intros H; apply Hp, Hpre, trimStart_In, H).
    rewrite (extract_fallback _ Hd), Hw.
    rewrite (search_narrow_found _ _ _ Hp' Hb').
    symmetry. now apply extract_cleaned_object.
  - split; vm_compute; reflexivity.
Qed.

(** A code unit is not among those of a given text. *)
Ltac absent :=
  let H := fresh in
  intros H; vm_compute in H;
  repeat (destruct H as [H|H]; [discriminate H|]); exact H.

Lemma extraction_ignores_plain_prose_witness :
  parse_reply example_reply = ret example_object /\
  extractAndParseJSON example_reply = ret example_object /\
  extractAndParseJSON
    (js "Voici `la` réponse : ```json" ++ [10] ++ jsq "{'success': true}"
     ++ [10] ++ js "``` fin")
  = extractAndParseJSON (jsq "{'success': true}").
Proof.
  pose proof (extraction_ignores_plain_prose
                (js "Voici `la` réponse : ```json" ++ [10])
                (jsq "'success': true")
                ([10] ++ js "``` fin")) as F.
  cbv zeta in F.
  destruct F as (_ & Hf & _); [absent|].
  pose proof (extraction_ignores_plain_prose
                (js "Voici la réponse: ")
                (jsq "'success': true, 'acceptabilityScore': 85")
                (js " avec du texte après")) as H.
  cbv zeta in H.
  destruct H as (Hm & Hd & _).
  - absent.
  - split; [|split].
    + change (parse_reply example_reply)
        with (parse_reply (js "Voici la réponse: "
                ++ (123 :: jsq "'success': true, 'acceptabilityScore': 85" ++ [125])
                ++ js " avec du texte après")).
      rewrite Hm; [reflexivity| |reflexivity].
      absent.
    + change (extractAndParseJSON example_reply)
        with (extractAndParseJSON (js "Voici la réponse: "
                ++ (123 :: jsq "'success': true, 'acceptabilityScore': 85" ++ [125])
                ++ js " avec du texte après")).
      rewrite Hd; [reflexivity| |reflexivity].
      absent.
    + change (js "Voici `la` réponse : ```json" ++ [10]
              ++ jsq "{'success': true}" ++ [10] ++ js "``` fin")
        with ((js "Voici `la` réponse : ```json" ++ [10])
              ++ (123 :: jsq "'success': true" ++ [125])
              ++ [10] ++ js "``` fin").
      change (jsq "{'success': true}")
        with (123 :: jsq "'success': true" ++ [125]).
      apply Hf; [|vm_compute; reflexivity].
      absent.
Defined.

End Prose.

(** ** Computations and their traces *)

#[local] Arguments js : simpl never.
#[local] Arguments obj : simpl never.
#[local] Arguments str : simpl never.

Section Traces.

Lemma bind_ret {A B} (a : A) (f : A -> M B) : bind (ret a) f = f a.
Proof. unfold bind, ret. now destruct (f a). Qed.

Lemma bind_throw {A B} (e : exn) (f : A -> M B) : bind (throw e) f = throw e.
Proof. reflexivity. Qed.

Lemma trace_try_finally {A} (m : M A) (f : M unit) :
  trace (try_finally m f) = trace m ++ trace f.
Proof. destruct m as [r t], f as [[e|[]] t']; reflexivity. Qed.

Lemma responses_app (t t' : list event) :
  responses (t ++ t') = responses t ++ responses t'.
Proof. apply flat_map_app. Qed.

Lemma unlinked_app (t t' : list event) :
  unlinked (t ++ t') = unlinked t ++ unlinked t'.
Proof. apply flat_map_app. Qed.

(** Tag parsing always ends in a value and calls nothing. *)
Lemma parse_tags_total (t : value) : exists v, parse_tags t = ret v.
Proof.
  destruct t; try (eexists; reflexivity).
  unfold parse_tags, json_parse.
  destruct (JSON_parse s); eexists; reflexivity.
Qed.

End Traces.

(** ** Input validation *)

Section InputValidation.

(** C9.  A submission whose [brand], [model] or [description] is absent
    (or [null], or empty), whose [tags] are absent, or whose list of files
    is absent or empty, is answered 400 and nothing else happens: no upload,
    no read, no completion, no persistence, no deletion.  The plain-data
    handler answers 400 to a [null], absent or otherwise falsy body in the
    same way. *)
Theorem missing_input_rejected_before_any_call :
  (forall (w : World) (req : PostRequest),
      truthy (brand req) = false \/ truthy (model req) = false \/
      truthy (description req) = false \/
      tags req = VUndefined \/ tags req = VNull \/
      files req = None \/ files req = Some [] ->
      trace (validatePost w req) = [ERespond 400 missing_fields_body] /\
      external_calls (trace (validatePost w req)) = [])
  /\
  (forall (w : World) (body : value),
      truthy body = false ->
      trace (validateData w body) =
        [ERespond 400 (obj [("success", VBool false);
                            ("error", str "Aucune donnée fournie.")])] /\
      external_calls (trace (validateData w body)) = []).
Proof.
  split.
  - intros w req H.
    assert (E : validatePost w req = respond 400 missing_fields_body).
    { unfold validatePost.
      destruct (parse_tags_total (tags req)) as [v Hv].
      rewrite Hv, bind_ret.
      assert (Hm : missing_input req v = true).
      { unfold missing_input.
        destruct H as [H|[H|[H|[H|[H|[H|H]]]]]]; try rewrite H in *; simpl;
          rewrite ?orb_true_r; try reflexivity;
          simpl in Hv; injection Hv as <-; simpl; now rewrite ?orb_true_r. }
      now rewrite Hm. }
    now rewrite E.
  - intros w body H. unfold validateData. rewrite H. now split.
Qed.

Lemma missing_input_rejected_before_any_call_witness :
  trace (validatePost (mock [] true)
           (MkPostRequest VUndefined (str "Corolla") (str "Voiture")
              (str "berline,fiable") (Some [car1; car2]) (str "Bearer token")))
  = [ERespond 400 missing_fields_body]
  /\ external_calls (trace (validateData (mock [] true) VNull)) = [].
Proof.
  destruct missing_input_rejected_before_any_call as [Hp Hd].
  split.
  - apply Hp. now left.
  - apply Hd. reflexivity.
Defined.

End InputValidation.

(** ** What the parts of a handler can do *)

Section Only.

Variable P : event -> bool.

Lemma only_ret {A} (a : A) : only P (ret a).
Proof. constructor. Qed.

Lemma only_throw {A} (e : exn) : only P (@throw A e).
Proof. constructor. Qed.

Lemma only_emit (ev : event) : P ev = true -> only P (emit ev).
Proof. intros H. now repeat constructor. Qed.

Lemma only_bind {A B} (m : M A) (f : A -> M B) :
  only P m -> (forall a, only P (f a)) -> only P (bind m f).
Proof.
  unfold only. destruct m as [[e|a] t]; simpl; [easy|].
  intros Hm Hf. specialize (Hf a). destruct (f a) as [r t']. simpl in *.
  apply Forall_app. now split.
Qed.

Lemma only_try_catch {A} (m : M A) (h : exn -> M A) :
  only P m -> (forall e, only P (h e)) -> only P (try_catch m h).
Proof.
  unfold only. destruct m as [[e|a] t]; simpl; [|easy].
  intros Hm Hh. specialize (Hh e). destruct (h e) as [r t']. simpl in *.
  apply Forall_app. now split.
Qed.

Lemma only_attempt {A} (m : M A) : only P m -> only P (attempt m).
Proof. unfold only. now destruct m. Qed.

Lemma only_settle {A} (r : exn + A) : only P (settle r).
Proof. destruct r; constructor. Qed.

Lemma only_call {A} (ev : event) (r : exn + A) :
  P ev = true -> only P (call ev r).
Proof.
  intros H. apply only_bind; [now apply only_emit|intros _; apply only_settle].
Qed.

Lemma only_json_parse (text : jsstring) : only P (json_parse text).
Proof. unfold only. rewrite json_parse_trace. constructor. Qed.

Lemma only_parse_reply (result : jsstring) : only P (parse_reply result).
Proof. unfold only. rewrite parse_reply_trace. constructor. Qed.

Lemma only_extract (text : jsstring) : only P (extractAndParseJSON text).
Proof. unfold only. rewrite extract_trace. constructor. Qed.

Lemma only_get (v : value) (k : jsstring) : only P (get v k).
Proof. destruct v; constructor. Qed.

Lemma only_build_prompt (d : value) : only P (build_prompt d).
Proof. destruct d; constructor. Qed.

Lemma only_promise_all {A} (rs : list (exn + A)) : only P (promise_all rs).
Proof.
  induction rs as [|[e|a] rs IH]; cbn [promise_all].
  - apply only_ret.
  - apply only_throw.
  - apply only_bind; [exact IH|intros; apply only_ret].
Qed.

Lemma only_upload_images (w : World) (images : list file) :
  (forall p, P (EUpload p) = true) -> (forall p, P (ERead p) = true) ->
  only P (upload_images w images).
Proof.
  intros Hu Hr. unfold upload_images.
  apply only_bind; [|intros started; apply only_bind;
                      [|intros; apply only_promise_all]].
  - induction images as [|f images IH]; cbn [start_uploads]; [apply only_ret|].
    apply only_bind; [now apply only_emit|intros _].
    apply only_bind; [exact IH|intros; apply only_ret].
  - induction started as [|[f r] started IH]; cbn [resume_uploads];
      [apply only_ret|].
    apply only_bind; [|intros; apply only_bind; [exact IH|intros; apply only_ret]].
    apply only_attempt.
    apply only_bind; [apply only_settle|intros].
    apply only_bind; [now apply only_call|intros; apply only_ret].
Qed.

End Only.

Ltac only_step :=
  match goal with
  | |- only _ (bind _ _) => apply only_bind; [|intro]
  | |- only _ (try_catch _ _) => apply only_try_catch; [|intro]
  | |- only _ (attempt _) => apply only_attempt
  | |- only _ (ret _) => apply only_ret
  | |- only _ (throw _) => apply only_throw
  | |- only _ (settle _) => apply only_settle
  | |- only _ (call _ _) => apply only_call; reflexivity
  | |- only _ (respond _ _) => apply only_emit; reflexivity
  | |- only _ (log _ _) => apply only_emit; reflexivity
  | |- only _ (emit _) => apply only_emit; reflexivity
  | |- only _ (json_parse _) => apply only_json_parse
  | |- only _ (parse_reply _) => apply only_parse_reply
  | |- only _ (extractAndParseJSON _) => apply only_extract
  | |- only _ (get _ _) => apply only_get
  | |- only _ (build_prompt _) => apply only_build_prompt
  | |- only _ (upload_images _ _) => apply only_upload_images; reflexivity
  | |- only _ (if ?b then _ else _) => destruct b
  | |- only _ (match ?x with _ => _ end) => destruct x
  end.

Section Cleanup.

Lemma only_nothing {A} (P : event -> bool) (m : M A) (f : event -> list jsstring) :
  (forall ev, P ev = true -> f ev = []) -> only P m -> flat_map f (trace m) = [].
Proof.
  intros Hf. unfold only. induction 1 as [|ev t Hev _ IH]; [reflexivity|].
  simpl. now rewrite (Hf _ Hev), IH.
Qed.

Lemma not_unlink_unlinked {A} (m : M A) :
  only (fun ev => negb (is_unlink ev)) m -> unlinked (trace m) = [].
Proof.
  apply only_nothing. now intros [].
Qed.

(** The [finally] block tries each file once, in order, whatever the
    deletions answer, and never throws. *)
Lemma unlink_files_unlinked (w : World) (images : list file) :
  unlinked (trace (unlink_files w images)) = map path images /\
  outcome (unlink_files w images) = inr tt.
Proof.
  induction images as [|f images [IHt IHo]]; [now split|].
  simpl. unfold call, settle.
  destruct (unlink_files w images) as [r t]. simpl in IHt, IHo. subst r.
  destruct (unlink w (path f)) as [e|[]]; simpl; now rewrite IHt.
Qed.

Lemma unlink_files_responses (w : World) (images : list file) :
  responses (trace (unlink_files w images)) = [].
Proof.
  induction images as [|f images IH]; [reflexivity|].
  simpl. unfold call, settle.
  destruct (unlink_files w images) as [r t]. simpl in IH.
  destruct (unlink w (path f)) as [e|[]]; simpl; exact IH.
Qed.

End Cleanup.

(** ** Deleting the temporary files *)

Section TemporaryFiles.

(** Past the input validation, [validatePost] tries to delete each file
    exactly once, in the [finally] block, after everything else. *)
Lemma validatePost_unlinks_each_file_once
  (w : World) (req : PostRequest) (the_tags : value) :
  parse_tags (tags req) = ret the_tags ->
  missing_input req the_tags = false ->
  exists before,
    trace (validatePost w req) = before ++ trace (cleanup w (files req)) /\
    unlinked before = [] /\
    responses (trace (cleanup w (files req))) = [] /\
    unlinked (trace (validatePost w req))
      = map path (match files req with Some l => l | None => [] end).
Proof.
  intros Ht Hm. unfold validatePost. rewrite Ht, bind_ret, Hm.
  rewrite trace_try_finally.
  match goal with |- context [trace ?m ++ _] => set (body := m) end.
  assert (Hb : unlinked (trace body) = []).
  { apply not_unlink_unlinked. subst body. repeat only_step. }
  exists (trace body). repeat split; [exact Hb| |].
  - destruct (files req); [apply unlink_files_responses|reflexivity].
  - rewrite unlinked_app, Hb.
    destruct (files req); [apply unlink_files_unlinked|reflexivity].
Qed.

(** [identifyCar] tries to delete its file exactly once on every path that
    has a file. *)
Lemma identifyCar_unlinks_once (w : World) (f : file) :
  has_path (Some f) = true ->
  unlinked (trace (identifyCar w (Some f))) = [path f].
Proof.
  intros Hp. unfold identifyCar. rewrite Hp.
  unfold unlink_quietly, call, settle, json_parse.
  destruct (readFile w (path f)) as [e|data];
    [destruct (unlink w (path f)) as [e'|[]]; reflexivity|].
  destruct (completion w) as [e|reply];
    [destruct (unlink w (path f)) as [e'|[]]; reflexivity|].
  cbn.
  destruct (JSON_parse reply) as [v|]; cbn;
    [destruct (unlink w (path f)) as [e'|[]]; reflexivity|].
  destruct (matched (search re_object_greedy reply)) as [m|]; cbn;
    [destruct (JSON_parse m) as [v|]; cbn|];
    destruct (unlink w (path f)) as [e'|[]]; reflexivity.
Qed.

(** C2 (the code departs from the specification).  The submission of the test
    suite, its two files attached, without [brand]: [validatePost] answers
    400 before entering the [try] whose [finally] deletes the files, and no
    deletion is attempted, whatever the collaborators would do. *)
Theorem rejected_submission_keeps_its_files (w : World) :
  files toyota_without_brand = Some [car1; car2] /\
  trace (validatePost w toyota_without_brand) = [ERespond 400 missing_fields_body] /\
  unlinked (trace (validatePost w toyota_without_brand)) = [].
Proof. repeat split. Qed.

End TemporaryFiles.

(** ** Verdicts and statuses *)

Section Verdicts.

#[local] Arguments parse_reply : simpl never.
#[local] Arguments extractAndParseJSON : simpl never.
#[local] Arguments get : simpl never.
#[local] Arguments truthy : simpl never.
#[local] Arguments trim : simpl never.

Lemma not_respond_responses {A} (m : M A) :
  only (fun ev => negb (is_respond ev)) m -> responses (trace m) = [].
Proof.
  intros H. unfold responses.
  induction H as [|ev t Hev _ IH]; [reflexivity|].
  simpl. rewrite IH. now destruct ev.
Qed.

Lemma upload_images_responses (w : World) (images : list file) :
  responses (trace (upload_images w images)) = [].
Proof. apply not_respond_responses. now apply only_upload_images. Qed.

Lemma cleanup_responses (w : World) (images : option (list file)) :
  responses (trace (cleanup w images)) = [].
Proof. destruct images; [apply unlink_files_responses|reflexivity]. Qed.

Lemma ret_of_outcome {A} (m : M A) (a : A) :
  trace m = [] -> outcome m = inr a -> m = ret a.
Proof. destruct m as [r t]. simpl. now intros -> ->. Qed.

(** C7.  A negative verdict is answered 400 with the parsed reply as its
    body by the media handler, and 200 with a rejection body by the
    plain-data handler. *)
Theorem negative_verdict_per_flow :
  (forall w req the_tags images ups d result parsed verdict,
      parse_tags (tags req) = ret the_tags ->
      missing_input req the_tags = false ->
      files req = Some images ->
      outcome (upload_images w images) = inr ups ->
      description req = VStr d ->
      completion w = inr result ->
      outcome (parse_reply result) = inr parsed ->
      get parsed (js "success") = ret verdict ->
      truthy verdict = false ->
      responses (trace (validatePost w req)) = [(400, parsed)])
  /\
  (forall w body content parsed verdict,
      truthy body = true ->
      completion w = inr content ->
      outcome (extractAndParseJSON (trim content)) = inr parsed ->
      get parsed (js "success") = ret verdict ->
      truthy verdict = false ->
      responses (trace (validateData w body))
      = [(200, obj [("success", VBool false);
                    ("error", str "Contenu inapproprié détecté")])]).
Proof.
  split.
  - intros w req the_tags images ups d result parsed verdict
      Ht Hm Hf Hu Hd Hc Hp Hg Hv.
    apply (ret_of_outcome _ _ (parse_reply_trace result)) in Hp.
    pose proof (upload_images_responses w images) as Hr.
    unfold validatePost. rewrite Ht, bind_ret, Hm, Hf.
    rewrite trace_try_finally, responses_app, cleanup_responses, app_nil_r.
    destruct (upload_images w images) as [[e|ups'] tu]; simpl in Hu, Hr;
      [discriminate|].
    rewrite Hd, Hc. cbn. rewrite Hp. cbn. rewrite Hg. cbn. rewrite Hv. cbn.
    now rewrite responses_app, Hr.
  - intros w body content parsed verdict Hb Hc Hp Hg Hv.
    apply (ret_of_outcome _ _ (extract_trace (trim content))) in Hp.
    unfold validateData. rewrite Hb, Hc. cbn.
    rewrite Hp. cbn. rewrite Hg. cbn. rewrite Hv. reflexivity.
Qed.

Lemma negative_verdict_per_flow_witness :
  responses (trace (validatePost (mock rejection_reply true) toyota))
    = [(400, rejection)]
  /\ responses (trace (validateData (mock (jsq "{'success': false}") true)
                         (obj [("username", str "testuser")])))
    = [(200, obj [("success", VBool false);
                  ("error", str "Contenu inapproprié détecté")])].
Proof.
  destruct negative_verdict_per_flow as [Hp Hd].
  split.
  - eapply Hp; reflexivity.
  - eapply Hd; reflexivity.
Defined.

(** C8.  Once the reply is an acceptance, the answer of the persistence
    service decides: with its [ok] flag down the handler answers 500, says
    that the validation succeeded and the recording failed and passes the
    service's body as [details]; with the flag up it answers 201 with the
    recorded post. *)
Theorem persistence_decides_status
  (w : World) (req : PostRequest) (the_tags : value) (images : list file)
  (ups : list uploaded) (d result : jsstring) (parsed verdict info : value)
  (response : fetch_response) (bddResult : value) :
  parse_tags (tags req) = ret the_tags ->
  missing_input req the_tags = false ->
  files req = Some images ->
  outcome (upload_images w images) = inr ups ->
  description req = VStr d ->
  completion w = inr result ->
  outcome (parse_reply result) = inr parsed ->
  get parsed (js "success") = ret verdict ->
  truthy verdict = true ->
  get parsed (js "info") = ret info ->
  persist w (post_document req the_tags ups) (authorization req) = inr response ->
  json response = inr bddResult ->
  responses (trace (validatePost w req)) =
  if ok response then
    [(201, obj [("success", VBool true);
                ("info", if truthy info then info else str "Post validé et créé");
                ("post", bddResult)])]
  else
    [(500, obj [("success", VBool false);
                ("error", str "Validation réussie mais échec de l'enregistrement");
                ("details", bddResult)])].
Proof.
  intros Ht Hm Hf Hu Hd Hc Hp Hg Hv Hi Hs Hj.
  apply (ret_of_outcome _ _ (parse_reply_trace result)) in Hp.
  pose proof (upload_images_responses w images) as Hr.
  unfold validatePost. rewrite Ht, bind_ret, Hm, Hf.
  rewrite trace_try_finally, responses_app, cleanup_responses, app_nil_r.
  destruct (upload_images w images) as [[e|ups'] tu]; simpl in Hu, Hr;
    [discriminate|].
  injection Hu as ->.
  rewrite Hd, Hc. cbn. rewrite Hp. cbn. rewrite Hg. cbn. rewrite Hv. cbn.
  rewrite Hs. cbn. rewrite Hj. cbn.
  destruct (ok response); cbn; [rewrite Hi; cbn|];
    now rewrite responses_app, Hr.
Qed.

Lemma persistence_decides_status_witness :
  responses (trace (validatePost (mock acceptance_reply false) toyota))
    = [(500, obj [("success", VBool false);
                  ("error", str "Validation réussie mais échec de l'enregistrement");
                  ("details", persisted)])]
  /\ responses (trace (validatePost (mock acceptance_reply true) toyota))
    = [(201, obj [("success", VBool true);
                  ("info", str "Post valide");
                  ("post", persisted)])].
Proof.
  split.
  - eapply (persistence_decides_status (mock acceptance_reply false) toyota)
      with (info := str "Post valide") (bddResult := persisted)
           (response := MkFetch false (inr persisted));
      reflexivity.
  - eapply (persistence_decides_status (mock acceptance_reply true) toyota)
      with (info := str "Post valide") (bddResult := persisted)
           (response := MkFetch true (inr persisted));
      reflexivity.
Defined.

End Verdicts.

(** ** Tags *)

Section Tags.

(** C10, as stated, fails: a string of tags that is itself valid JSON is
    taken as that JSON value and not split, be it a quoted text with a comma
    in it or a single numeric tag. *)
Lemma json_tags_are_not_split :
  let quoted := jsq "'berline, fiable'" in
  parse_tags (VStr quoted) = ret (str "berline, fiable") /\
  parse_tags (VStr quoted)
    <> ret (VArr (map (fun t => VStr (trim t)) (split_on 44 quoted))) /\
  parse_tags (str "2020") = ret (VNum (MkNumber false 2020 0)) /\
  parse_tags (str "2020")
    <> ret (VArr (map (fun t => VStr (trim t)) (split_on 44 (js "2020")))).
Proof.
  cbv zeta. split; [|split; [|split]];
    try (vm_compute; reflexivity); vm_compute; discriminate.
Qed.

(** C10, amended.  Parsing a string of tags never throws.  A string that is
    a valid JSON array gives that array.  A string that is not valid JSON
    gives its comma-separated pieces, trimmed, in their order: pieces
    without a comma that, joined by commas, spell the string. *)
Theorem parse_tags_never_throws (s : jsstring) :
  (exists v, parse_tags (VStr s) = ret v) /\
  (forall l, JSON_parse s = Some (VArr l) -> parse_tags (VStr s) = ret (VArr l)) /\
  (JSON_parse s = None ->
   exists pieces,
     join 44 pieces = s /\
     (forall t, In t pieces -> ~ In 44 t) /\
     parse_tags (VStr s) = ret (VArr (map (fun t => VStr (trim t)) pieces))).
Proof.
  split; [apply parse_tags_total|split].
  - intros l H. unfold parse_tags. now rewrite (json_parse_some _ _ H).
  - intros H. exists (split_on 44 s). split; [apply join_split_on|split].
    + intros t. apply split_on_no_sep.
    + unfold parse_tags. now rewrite (json_parse_none _ H), try_catch_throw.
Qed.

Lemma parse_tags_never_throws_witness :
  parse_tags (VStr (jsq "['berline','fiable']")) = ret (VArr [str "berline"; str "fiable"])
  /\ exists pieces,
       join 44 pieces = js "berline, fiable ,économique" /\
       parse_tags (str "berline, fiable ,économique")
       = ret (VArr (map (fun t => VStr (trim t)) pieces)).
Proof.
  split.
  - apply (parse_tags_never_throws (jsq "['berline','fiable']")). reflexivity.
  - destruct (parse_tags_never_throws (js "berline, fiable ,économique"))
      as (_ & _ & H).
    destruct (H eq_refl) as (pieces & Hj & _ & Hp).
    exists pieces. split; [exact Hj|exact Hp].
Defined.

End Tags.

(** ** Where a result comes from *)

Section JsonFacts.






End JsonFacts.

Section Origin.

#[local] Arguments parse_reply : simpl never.
#[local] Arguments extractAndParseJSON : simpl never.
#[local] Arguments get : simpl never.
#[local] Arguments truthy : simpl never.
#[local] Arguments trim : simpl never.





End Origin.

Section TerminalFailure.

#[local] Arguments responses : simpl never.
#[local] Arguments parse_reply : simpl never.
#[local] Arguments extractAndParseJSON : simpl never.
#[local] Arguments get : simpl never.
#[local] Arguments truthy : simpl never.
#[local] Arguments trim : simpl never.


Lemma only_filter {A} (Q : event -> bool) (m : M A) :
  only (fun ev => negb (Q ev)) m -> filter Q (trace m) = [].
Proof.
  unfold only. induction 1 as [|ev t Hev _ IH]; [reflexivity|].
  simpl. apply negb_true_iff in Hev. now rewrite Hev.
Qed.

Lemma only_cleanup (P : event -> bool) (w : World) (images : option (list file)) :
  (forall p, P (EUnlink p) = true) -> (forall l t, P (ELog l t) = true) ->
  only P (cleanup w images).
Proof.
  intros Hu Hl. destruct images as [l|]; [|apply only_ret].
  induction l as [|f l IH]; cbn [cleanup unlink_files]; [apply only_ret|].
  apply only_bind; [|intros; exact IH].
  apply only_try_catch; [now apply only_call|intros; now apply only_emit].
Qed.




End TerminalFailure.

Section Results.




End Results.

(** ** The fuel of the parser *)

Section ParserFuel.

Lemma skip_ws_length (s : jsstring) :
  (List.length (skip_ws s) <= List.length s)%nat.
Proof.
  induction s as [|c s IH]; simpl; [lia|].
  destruct (is_json_ws c); simpl; lia.
Qed.

Lemma parse_string_length (s str rest : jsstring) :
  parse_string s = Some (str, rest) ->
  (List.length rest < List.length s)%nat.
Proof.
  remember (List.length s) as n eqn:En.
  assert (Hn : (List.length s <= n)%nat) by lia. clear En.
  revert s str rest Hn.
  induction n as [|n IH]; intros s str rest Hn H.
  - destruct s; [discriminate|simpl in Hn; lia].
  - destruct s as [|c r]; [discriminate|].
    cbn [parse_string] in H. simpl in Hn.
    destruct (c =? 34).
    { injection H as <- <-. simpl. lia. }
    destruct (c =? 92).
    + destruct r as [|e r1]; [discriminate|].
      destruct (e =? 117).
      * destruct r1 as [|h1 [|h2 [|h3 [|h4 r2]]]]; try discriminate.
        destruct (hex_value h1), (hex_value h2), (hex_value h3), (hex_value h4);
          try discriminate.
        destruct (parse_string r2) as [[str' rest']|] eqn:E; [|discriminate].
        injection H as <- <-.
        apply IH in E; simpl in *; lia.
      * destruct (escape_value e); [|discriminate].
        destruct (parse_string r1) as [[str' rest']|] eqn:E; [|discriminate].
        injection H as <- <-.
        apply IH in E; simpl in *; lia.
    + destruct (c <? 32); [discriminate|].
      destruct (parse_string r) as [[str' rest']|] eqn:E; [|discriminate].
      injection H as <- <-.
      apply IH in E; simpl in *; lia.
Qed.

Lemma digits_length (s : jsstring) (ds : list N) (rest : jsstring) :
  digits s = (ds, rest) -> (List.length rest <= List.length s)%nat.
Proof.
  revert ds rest. induction s as [|c s IH]; intros ds rest H.
  - injection H as <- <-. simpl. lia.
  - simpl in H. destruct (is_digit c).
    + destruct (digits s) as [ds' rest'] eqn:E.
      injection H as <- <-. specialize (IH _ _ eq_refl). simpl. lia.
    + injection H as <- <-. lia.
Qed.

Lemma parse_number_length (s : jsstring) (x : number) (rest : jsstring) :
  parse_number s = Some (x, rest) ->
  (List.length rest < List.length s)%nat.
Proof.
  unfold parse_number.
  set (signed := match s with
                 | c :: r => if c =? 45 then (true, r) else (false, s)
                 | [] => (false, s)
                 end).
  assert (Hs : (List.length (snd signed) <= List.length s)%nat).
  { subst signed. destruct s as [|c r]; simpl; [lia|].
    destruct (c =? 45); simpl; lia. }
  destruct signed as [sign s1]. simpl in Hs.
  destruct (parse_int_part s1) as [[ip s2]|] eqn:Ei; [|discriminate].
  destruct (parse_fraction s2) as [[fp s3]|] eqn:Ef; [|discriminate].
  destruct (parse_exponent s3) as [[e s4]|] eqn:Ee; [|discriminate].
  intros H. injection H as _ <-.
  assert (H2 : (List.length s2 < List.length s1)%nat).
  { unfold parse_int_part in Ei. destruct s1 as [|c r]; [discriminate|].
    destruct (c =? 48).
    - injection Ei as _ <-. simpl. lia.
    - destruct (is_digit c) eqn:Ed; [|discriminate].
      injection Ei as Ei. simpl in Ei. rewrite Ed in Ei.
      destruct (digits r) as [ds' rest'] eqn:E.
      injection Ei as _ <-. apply digits_length in E. simpl. lia. }
  assert (H3 : (List.length s3 <= List.length s2)%nat).
  { unfold parse_fraction in Ef. destruct s2 as [|c r].
    - injection Ef as _ <-. lia.
    - destruct (c =? 46).
      + destruct (digits r) as [[|d ds'] rest'] eqn:E; [discriminate|].
        injection Ef as _ <-. apply digits_length in E. simpl. lia.
      + injection Ef as _ <-. lia. }
  assert (Hx : forall sg t z t', exponent_digits sg t = Some (z, t') ->
                                 (List.length t' <= List.length t)%nat).
  { intros sg t z t' Hd. unfold exponent_digits in Hd.
    destruct (digits t) as [[|d ds'] rest'] eqn:E; [discriminate|].
    injection Hd as _ <-. now apply digits_length in E. }
  assert (H4 : (List.length s4 <= List.length s3)%nat).
  { unfold parse_exponent in Ee. destruct s3 as [|c r].
    - injection Ee as _ <-. lia.
    - destruct ((c =? 101) || (c =? 69)).
      + destruct r as [|sg r1]; [discriminate|].
        destruct (sg =? 45); [apply Hx in Ee; simpl in *; lia|].
        destruct (sg =? 43); apply Hx in Ee; simpl in *; lia.
      + injection Ee as _ <-. lia. }
  lia.
Qed.

Lemma keyword_length (w : jsstring) (v v' : value) (s rest : jsstring) :
  w <> [] -> keyword w v s = Some (v', rest) ->
  (List.length rest < List.length s)%nat.
Proof.
  intros Hw. unfold keyword.
  destruct (starts_with w s) eqn:E; [|discriminate].
  intros H. injection H as _ <-.
  apply starts_with_inv in E as [b ->].
  rewrite skipn_app, skipn_all, Nat.sub_diag. simpl. rewrite length_app.
  destruct w; [contradiction|simpl; lia].
Qed.

Ltac lengths := cbn [List.length] in *; lia.

(** A successful call consumes input, and succeeds the same with any fuel
    that is at least the number of code units consumed. *)
Lemma parse_fuel (n : nat) :
  (forall s v rest,
      parse_value n s = Some (v, rest) ->
      (List.length rest < List.length s)%nat /\
      forall m, (List.length s - List.length rest <= m)%nat ->
                parse_value m s = Some (v, rest))
  /\
  (forall s acc v rest,
      parse_members n s acc = Some (v, rest) ->
      (List.length rest < List.length s)%nat /\
      forall m, (List.length s - List.length rest <= m)%nat ->
                parse_members m s acc = Some (v, rest))
  /\
  (forall s acc v rest,
      parse_elements n s acc = Some (v, rest) ->
      (List.length rest < List.length s)%nat /\
      forall m, (List.length s - List.length rest <= m)%nat ->
                parse_elements m s acc = Some (v, rest)).
Proof.
  induction n as [|n (IHv & IHm & IHe)]; [repeat split; discriminate|].
  split; [|split].
  - intros s v rest H.
    destruct s as [|c r]; [discriminate|].
    cbn [parse_value] in H.
    destruct (c =? 123) eqn:E1.
    { destruct (skip_ws r) as [|c' r'] eqn:Ew; [discriminate|].
      pose proof (skip_ws_length r) as Hw. rewrite Ew in Hw.
      destruct (c' =? 125) eqn:E2.
      - injection H as <- <-. split; [lengths|].
        intros [|m] Hm; [lengths|].
        cbn [parse_value]. now rewrite E1, Ew, E2.
      - apply IHm in H as [Hl Hf]. split; [lengths|].
        intros [|m] Hm; [lengths|].
        cbn [parse_value]. rewrite E1, Ew, E2. apply Hf. lengths. }
    destruct (c =? 91) eqn:E2.
    { destruct (skip_ws r) as [|c' r'] eqn:Ew; [discriminate|].
      pose proof (skip_ws_length r) as Hw. rewrite Ew in Hw.
      destruct (c' =? 93) eqn:E3.
      - injection H as <- <-. split; [lengths|].
        intros [|m] Hm; [lengths|].
        cbn [parse_value]. now rewrite E1, E2, Ew, E3.
      - apply IHe in H as [Hl Hf]. split; [lengths|].
        intros [|m] Hm; [lengths|].
        cbn [parse_value]. rewrite E1, E2, Ew, E3. apply Hf. lengths. }
    assert (Hany : forall m, parse_value (S m) (c :: r) = parse_value (S n) (c :: r)).
    { intros m. cbn [parse_value]. now rewrite E1, E2. }
    assert (Hl : (List.length rest < List.length (c :: r))%nat).
    { destruct (c =? 34).
      - destruct (parse_string r) as [[str rest']|] eqn:Es; [|discriminate].
        injection H as _ <-. apply parse_string_length in Es. lengths.
      - destruct (c =? 116);
          [now apply keyword_length in H|].
        destruct (c =? 102);
          [now apply keyword_length in H|].
        destruct (c =? 110);
          [now apply keyword_length in H|].
        destruct (parse_number (c :: r)) as [[x rest']|] eqn:En; [|discriminate].
        injection H as _ <-. now apply parse_number_length in En. }
    split; [exact Hl|].
    intros [|m] Hm; [lengths|].
    rewrite Hany. cbn [parse_value]. now rewrite E1, E2.
  - intros s acc v rest H.
    destruct s as [|c r]; [discriminate|].
    cbn [parse_members] in H.
    destruct (c =? 34) eqn:E1; [|discriminate].
    destruct (parse_string r) as [[key r1]|] eqn:Es; [|discriminate].
    destruct (skip_ws r1) as [|c1 r2] eqn:Ew1; [discriminate|].
    destruct (c1 =? 58) eqn:E2; [|discriminate].
    destruct (parse_value n (skip_ws r2)) as [[v1 r3]|] eqn:Ev; [|discriminate].
    destruct (skip_ws r3) as [|c2 r4] eqn:Ew3; [discriminate|].
    pose proof (parse_string_length _ _ _ Es) as L1.
    pose proof (skip_ws_length r1) as L2. rewrite Ew1 in L2.
    pose proof (skip_ws_length r2) as L3.
    apply IHv in Ev as [L4 Hfv].
    pose proof (skip_ws_length r3) as L5. rewrite Ew3 in L5.
    pose proof (skip_ws_length r4) as L6.
    destruct (c2 =? 44) eqn:E3.
    + apply IHm in H as [L7 Hfm]. split; [lengths|].
      intros [|m] Hm; [lengths|].
      cbn [parse_members].
      rewrite E1, Es, Ew1, E2, (Hfv m) by lengths.
      rewrite Ew3, E3. apply Hfm. lengths.
    + destruct (c2 =? 125) eqn:E4; [|discriminate].
      injection H as <- <-. split; [lengths|].
      intros [|m] Hm; [lengths|].
      cbn [parse_members].
      rewrite E1, Es, Ew1, E2, (Hfv m) by lengths.
      now rewrite Ew3, E3, E4.
  - intros s acc v rest H.
    cbn [parse_elements] in H.
    destruct (parse_value n s) as [[v1 r1]|] eqn:Ev; [|discriminate].
    destruct (skip_ws r1) as [|c r2] eqn:Ew; [discriminate|].
    apply IHv in Ev as [L1 Hfv].
    pose proof (skip_ws_length r1) as L2. rewrite Ew in L2.
    pose proof (skip_ws_length r2) as L3.
    destruct (c =? 44) eqn:E1.
    + apply IHe in H as [L4 Hfe]. split; [lengths|].
      intros [|m] Hm; [lengths|].
      cbn [parse_elements]. rewrite (Hfv m) by lengths.
      rewrite Ew, E1. apply Hfe. lengths.
    + destruct (c =? 93) eqn:E2; [|discriminate].
      injection H as <- <-. split; [lengths|].
      intros [|m] Hm; [lengths|].
      cbn [parse_elements]. rewrite (Hfv m) by lengths.
      now rewrite Ew, E1, E2.
Qed.

(** The fuel [JSON_parse] gives is enough: a text that the grammar accepts
    with some fuel is parsed. *)
Lemma parse_value_fuel (n : nat) (s : jsstring) (v : value) (rest : jsstring) :
  parse_value n s = Some (v, rest) ->
  forall m, (List.length s <= m)%nat -> parse_value m s = Some (v, rest).
Proof.
  intros H m Hm.
  destruct (parse_fuel n) as (Hv & _ & _).
  apply Hv in H as [_ Hf]. apply Hf. lia.
Qed.

Lemma JSON_parse_complete (n : nat) (text : jsstring) (v : value) (rest : jsstring) :
  parse_value n (skip_ws text) = Some (v, rest) ->
  skip_ws rest = [] ->
  JSON_parse text = Some v.
Proof.
  intros H Hr. unfold JSON_parse.
  rewrite (parse_value_fuel _ _ _ _ H), Hr; [reflexivity|].
  pose proof (skip_ws_length text). lia.
Qed.

End ParserFuel.

(** ** The scenarios of the test suite, run on the model *)

Section TestSuite.

(** "valide un post correct via GPT": status 201, the payload of the test,
    both temporary files deleted after the response. *)
Example scenario_created :
  let t := trace (validatePost (mock acceptance_reply true) toyota) in
  responses t = [(201, obj [("success", VBool true);
                            ("info", str "Post valide");
                            ("post", persisted)])]
  /\ unlinked t = [js "/tmp/upload1.jpg"; js "/tmp/upload2.jpg"]
  /\ external_calls t =
     [EUpload (js "/tmp/upload1.jpg"); EUpload (js "/tmp/upload2.jpg");
      ERead (js "/tmp/upload1.jpg"); ERead (js "/tmp/upload2.jpg");
      ECompletion;
      EPersist (post_document toyota (tags toyota)
                  [MkUploaded (js "car1.jpg") (js "http://img.com/img.jpg")
                     (js "aW1nZGF0YQ==");
                   MkUploaded (js "car2.jpg") (js "http://img.com/img.jpg")
                     (js "aW1nZGF0YQ==")])
               (str "Bearer token");
      EUnlink (js "/tmp/upload1.jpg"); EUnlink (js "/tmp/upload2.jpg")].
Proof. cbv zeta. repeat split; vm_compute; reflexivity. Qed.

(** "gère les erreurs de base de données" *)
Example scenario_persistence_failed :
  let t := trace (validatePost (mock acceptance_reply false) toyota) in
  responses t
  = [(500, obj [("success", VBool false);
                ("error", str "Validation réussie mais échec de l'enregistrement");
                ("details", persisted)])]
  /\ unlinked t = [js "/tmp/upload1.jpg"; js "/tmp/upload2.jpg"].
Proof. cbv zeta. split; vm_compute; reflexivity. Qed.

(** "gère les erreurs Cloudinary" and "supprime les fichiers temporaires même
    en cas d'erreur GPT" *)
Example scenario_collaborator_down :
  responses (trace (validatePost mock_store_down toyota))
  = [(500, obj [("success", VBool false); ("error", str "Erreur serveur");
                ("message", str "Cloudinary upload failed")])]
  /\ unlinked (trace (validatePost mock_provider_down toyota))
     = [js "/tmp/upload1.jpg"; js "/tmp/upload2.jpg"].
Proof. split; vm_compute; reflexivity. Qed.

(** "gère les erreurs de suppression de fichiers temporaires": the failure is
    logged and the answer stays 201. *)
Example scenario_unlink_denied :
  let t := trace (validatePost (mock_unlink_denied acceptance_reply) toyota) in
  map fst (responses t) = [201]
  /\ In (ELog Warn (js "Erreur suppression fichier:")) t
  /\ unlinked t = [js "/tmp/upload1.jpg"; js "/tmp/upload2.jpg"].
Proof.
  cbv zeta. split; [|split]; [vm_compute; reflexivity| |vm_compute; reflexivity].
  vm_compute. tauto.
Qed.

(** "gère une réponse GPT complètement invalide", for both handlers. *)
Example scenario_prose_reply :
  map fst (responses (trace (validatePost (mock (js "Réponse non JSON invalide") true)
                               toyota))) = [500]
  /\ map fst (responses (trace (validateData (mock (js "Réponse non JSON invalide") true)
                                  (obj [("username", str "testuser")])))) = [500].
Proof. split; vm_compute; reflexivity. Qed.

(** "parse les tags via split si JSON.parse échoue" *)
Example scenario_tags :
  parse_tags (str "berline,fiable,économique")
  = ret (VArr [str "berline"; str "fiable"; str "économique"])
  /\ parse_tags (VStr (jsq "['berline','fiable']"))
     = ret (VArr [str "berline"; str "fiable"]).
Proof. split; vm_compute; reflexivity. Qed.

(** Fences and backticks around the object, in the plain-data flow. *)
Example scenario_fenced_reply :
  extractAndParseJSON (js "```json" ++ [10] ++ jsq "{'success': false}"
                         ++ [10] ++ js "```")
  = ret (obj [("success", VBool false)]).
Proof. vm_compute. reflexivity. Qed.

End TestSuite.

(** * Further properties of the handlers *)

(** ** One answer per request *)

Section OneAnswer.

#[local] Arguments responses : simpl never.

Lemma only_try_finally {A} (P : event -> bool) (m : M A) (f : M unit) :
  only P m -> only P f -> only P (try_finally m f).
Proof.
  unfold only. rewrite trace_try_finally. intros Hm Hf.
  apply Forall_app. now split.
Qed.

Lemma only_parse_tags (P : event -> bool) (t : value) : only P (parse_tags t).
Proof.
  destruct (parse_tags_total t) as [v ->]. apply only_ret.
Qed.

Lemma only_status (allowed : list N) {A} (m : M A) :
  only (status_among allowed) m ->
  forall s b, In (s, b) (responses (trace m)) -> In s allowed.
Proof.
  unfold only, responses. induction 1 as [|ev t Hev _ IH]; intros s b Hin.
  - destruct Hin.
  - simpl in Hin. apply in_app_or in Hin as [Hin|Hin]; [|now apply (IH s b)].
    destruct ev; simpl in Hin; try contradiction.
    destruct Hin as [Hin|[]].
    injection Hin as <- <-. simpl in Hev.
    apply existsb_exists in Hev as (x & Hx & E).
    apply N.eqb_eq in E. now subst x.
Qed.

Lemma silent_responses {A} (m : M A) :
  only (fun ev => negb (is_respond ev)) m -> responses (trace m) = [].
Proof. apply not_respond_responses. Qed.

Lemma answers_bind {A B} (m : M A) (f : A -> M B) :
  responses (trace m) = [] ->
  (forall a, answers_or_throws (f a)) ->
  answers_or_throws (bind m f).
Proof.
  unfold answers_or_throws. destruct m as [[e|a] t]; simpl; intros Ht Hf.
  - exact Ht.
  - specialize (Hf a). destruct (f a) as [r t']. simpl in *.
    rewrite responses_app, Ht. exact Hf.
Qed.

Lemma answers_respond (s : N) (b : value) : answers_or_throws (respond s b).
Proof. reflexivity. Qed.

Lemma answers_caught {A} (m : M A) (h : exn -> M A) :
  answers_or_throws m ->
  (forall e, List.length (responses (trace (h e))) = 1%nat) ->
  List.length (responses (trace (try_catch m h))) = 1%nat.
Proof.
  unfold answers_or_throws. destruct m as [[e|a] t]; simpl; intros Hm Hh.
  - specialize (Hh e). destruct (h e) as [r t']. simpl in *.
    now rewrite responses_app, Hm.
  - exact Hm.
Qed.

Ltac silent := apply silent_responses; repeat only_step.

Ltac answers_step :=
  match goal with
  | |- answers_or_throws (respond _ _) => apply answers_respond
  | |- answers_or_throws (bind _ _) => apply answers_bind; [silent|intro]
  | |- answers_or_throws (if ?b then _ else _) => destruct b
  | |- answers_or_throws (match ?x with _ => _ end) => destruct x
  end.

(** X1.  Whatever the request and whatever the collaborators do,
    [validatePost] answers exactly once, with status 201, 400 or 500. *)
Theorem validatePost_answers_once (w : World) (req : PostRequest) :
  exists status body,
    responses (trace (validatePost w req)) = [(status, body)] /\
    (status = 201 \/ status = 400 \/ status = 500).
Proof.
  assert (Hs : only (status_among [201; 400; 500]) (validatePost w req)).
  { unfold validatePost. repeat only_step; try apply only_parse_tags.
    apply only_try_finally; [repeat only_step|now apply only_cleanup]. }
  assert (Hn : List.length (responses (trace (validatePost w req))) = 1%nat).
  { unfold validatePost.
    destruct (parse_tags_total (tags req)) as [v ->]. rewrite bind_ret.
    destruct (missing_input req v); [reflexivity|].
    rewrite trace_try_finally, responses_app, cleanup_responses, app_nil_r.
    apply answers_caught; [repeat answers_step|reflexivity]. }
  destruct (responses (trace (validatePost w req))) as [|[s b] [|x l]] eqn:E;
    try discriminate.
  exists s, b. split; [reflexivity|].
  pose proof (only_status _ _ Hs s b) as H. rewrite E in H.
  specialize (H (or_introl eq_refl)). simpl in H. intuition.
Qed.

(** X2.  [validateData] answers exactly once, with status 200, 400 or 500,
    and its only external call is to the provider: one call when the body
    is there, none otherwise. *)
Theorem validateData_answers_once (w : World) (body : value) :
  (exists status answer,
      responses (trace (validateData w body)) = [(status, answer)] /\
      (status = 200 \/ status = 400 \/ status = 500)) /\
  external_calls (trace (validateData w body))
  = if truthy body then [ECompletion] else [].
Proof.
  unfold validateData. destruct (truthy body).
  - unfold call, settle. destruct (completion w) as [e|content].
    + split; [|reflexivity]. do 2 eexists. split; [reflexivity|auto].
    + cbn.
      pose proof (extract_trace (trim content)) as Ht.
      destruct (extractAndParseJSON (trim content)) as [[e|parsed] t].
      * simpl in Ht. subst t. split; [|reflexivity].
        do 2 eexists. split; [reflexivity|auto].
      * simpl in Ht. subst t. cbn.
        destruct parsed; cbn;
          try (split; [|reflexivity]; do 2 eexists; split; [reflexivity|auto]).
        destruct (truthy (get_member (js "success") members));
          split; try reflexivity; do 2 eexists; split; try reflexivity; auto.
  - split; [|reflexivity]. do 2 eexists. split; [reflexivity|auto].
Qed.

End OneAnswer.

(** ** The identification handler *)

Section Identification.

#[local] Arguments parse_reply : simpl never.

(** X3.  Without a file, or with a file that has no path, [identifyCar]
    answers 400 and does nothing else: nothing is read, the provider is not
    called, nothing is deleted. *)
Theorem identifyCar_without_file (w : World) (f : option file) :
  has_path f = false ->
  trace (identifyCar w f)
  = [ERespond 400 (obj [("success", VBool false);
                        ("error", str "Aucune image n'a été fournie.")])].
Proof.
  intros H. unfold identifyCar. destruct f as [x|]; [|reflexivity].
  now rewrite H.
Qed.

Lemma identifyCar_without_file_witness :
  trace (identifyCar (mock [] true) (Some (MkFile [] (js "car1.jpg"))))
  = [ERespond 400 (obj [("success", VBool false);
                        ("error", str "Aucune image n'a été fournie.")])].
Proof. apply identifyCar_without_file. reflexivity. Defined.

(** X4.  With a file, [identifyCar] answers exactly once, with status 200 or
    500, and then tries to delete the file, exactly once, on every path.
    It reads the file first and calls the provider only if the read
    succeeded; it never uploads or persists anything. *)
Theorem identifyCar_with_file (w : World) (f : file) :
  has_path (Some f) = true ->
  (exists status body,
      filter (fun ev => is_respond ev || is_unlink ev)
             (trace (identifyCar w (Some f)))
      = [ERespond status body; EUnlink (path f)] /\
      (status = 200 \/ status = 500)) /\
  external_calls (trace (identifyCar w (Some f)))
  = ERead (path f)
    :: (match readFile w (path f) with inr _ => [ECompletion] | inl _ => [] end)
    ++ [EUnlink (path f)].
Proof.
  intros Hp. unfold identifyCar. rewrite Hp.
  unfold unlink_quietly, call, settle, json_parse.
  destruct (readFile w (path f)) as [e|data].
  { destruct (unlink w (path f)) as [e'|[]];
      (split; [do 2 eexists; split; [reflexivity|auto]|reflexivity]). }
  destruct (completion w) as [e|reply].
  { destruct (unlink w (path f)) as [e'|[]];
      (split; [do 2 eexists; split; [reflexivity|auto]|reflexivity]). }
  cbn.
  destruct (JSON_parse reply) as [v|]; cbn.
  { destruct (unlink w (path f)) as [e'|[]];
      (split; [do 2 eexists; split; [reflexivity|auto]|reflexivity]). }
  destruct (matched (search re_object_greedy reply)) as [m|]; cbn;
    [destruct (JSON_parse m) as [v|]; cbn|];
    destruct (unlink w (path f)) as [e'|[]];
    (split; [do 2 eexists; split; [reflexivity|auto]|reflexivity]).
Qed.

Lemma identifyCar_with_file_witness :
  external_calls (trace (identifyCar (mock acceptance_reply true) (Some car1)))
  = [ERead (path car1); ECompletion; EUnlink (path car1)].
Proof.
  apply (identifyCar_with_file (mock acceptance_reply true) car1). reflexivity.
Defined.

(** X5.  [identifyCar] does not look at the [success] flag: whatever value
    the reply yields, parsed whole or from its first opening brace to its
    last closing brace, is answered with status 200.  A reply that yields
    none is answered 500 with the raw reply in [rawResponse], under one
    message when it has no braces and another when its braces do not
    parse. *)
Theorem identifyCar_passes_the_reply
  (w : World) (f : file) (data result : jsstring) :
  has_path (Some f) = true ->
  readFile w (path f) = inr data ->
  completion w = inr result ->
  responses (trace (identifyCar w (Some f)))
  = match outcome (parse_reply result) with
    | inr v => [(200, v)]
    | inl (Error _) =>
        [(500, obj [("success", VBool false);
                    ("error", str "Format de réponse inattendu");
                    ("rawResponse", VStr result)])]
    | inl _ =>
        [(500, obj [("success", VBool false);
                    ("error", str "Format de réponse invalide de l'API");
                    ("rawResponse", VStr result)])]
    end.
Proof.
  intros Hp Hr Hc. unfold identifyCar. rewrite Hp, Hr, Hc.
  unfold unlink_quietly, call, settle. cbn.
  destruct (JSON_parse result) as [v|] eqn:E.
  - rewrite (parse_reply_direct _ _ E), (json_parse_some _ _ E). cbn.
    destruct (unlink w (path f)) as [e'|[]]; reflexivity.
  - rewrite (parse_reply_fallback _ E), (json_parse_none _ E). cbn.
    destruct (matched (search re_object_greedy result)) as [m|]; cbn.
    + unfold json_parse. destruct (JSON_parse m) as [v|]; cbn;
        destruct (unlink w (path f)) as [e'|[]]; reflexivity.
    + destruct (unlink w (path f)) as [e'|[]]; reflexivity.
Qed.

Lemma identifyCar_passes_the_reply_witness :
  responses (trace (identifyCar (mock (jsq "Voici : {'success': false} fin") true)
                      (Some car1)))
  = [(200, obj [("success", VBool false)])].
Proof.
  apply (identifyCar_passes_the_reply
           (mock (jsq "Voici : {'success': false} fin") true) car1
           (js "aW1nZGF0YQ==") (jsq "Voici : {'success': false} fin"));
    reflexivity.
Defined.

End Identification.

(** ** The uploads *)

Section Uploads.

Lemma start_uploads_spec (w : World) (images : list file) :
  start_uploads w images
  = (inr (map (fun f => (f, upload w (path f))) images),
     map (fun f => EUpload (path f)) images).
Proof.
  induction images as [|f images IH]; [reflexivity|].
  cbn [start_uploads]. rewrite IH. cbn. now rewrite app_nil_r.
Qed.

Lemma resume_uploads_spec (w : World) (images : list file) :
  resume_uploads w (map (fun f => (f, upload w (path f))) images)
  = (inr (map (settled w) images),
     flat_map (fun f => match upload w (path f) with
                        | inr _ => [ERead (path f)]
                        | inl _ => []
                        end) images).
Proof.
  induction images as [|f images IH]; [reflexivity|].
  cbn [map resume_uploads]. rewrite IH.
  cbn [flat_map map]. unfold settled at 2. unfold call, settle.
  destruct (upload w (path f)) as [e|u]; cbn; [now rewrite app_nil_r|].
  destruct (readFile w (path f)) as [e|d]; cbn; now rewrite app_nil_r.
Qed.

Lemma promise_all_trace {A} (rs : list (exn + A)) : trace (promise_all rs) = [].
Proof.
  induction rs as [|[e|a] rs IH]; try reflexivity.
  cbn [promise_all]. destruct (promise_all rs) as [[e|l] t]; simpl in *;
    now subst t.
Qed.

Lemma promise_all_values {A} (rs : list (exn + A)) (l : list A) :
  outcome (promise_all rs) = inr l <-> rs = map inr l.
Proof.
  revert l. induction rs as [|[e|a] rs IH]; intros l.
  - split; [intros H; injection H as <-; reflexivity|].
    destruct l; [reflexivity|discriminate].
  - split; [discriminate|destruct l; discriminate].
  - cbn [promise_all]. pose proof (promise_all_trace rs) as Ht.
    destruct (promise_all rs) as [[e|l'] t]; simpl in Ht; subst t; simpl in *.
    + split; [discriminate|].
      destruct l as [|a' l]; [discriminate|].
      intros H. injection H as _ H. apply IH in H. discriminate.
    + split.
      * intros H. injection H as <-. simpl. f_equal. now apply IH.
      * destruct l as [|a' l]; [discriminate|].
        intros H. injection H as <- H. apply IH in H.
        injection H as <-. reflexivity.
Qed.

Lemma promise_all_rejection {A} (rs : list (exn + A)) (e : exn) :
  outcome (promise_all rs) = inl e <->
  exists l after, rs = map inr l ++ inl e :: after.
Proof.
  induction rs as [|[e'|a] rs IH].
  - split; [discriminate|]. intros (l & after & H).
    destruct l; discriminate.
  - split.
    + intros H. injection H as <-. now exists [], rs.
    + intros (l & after & H). destruct l; [|discriminate].
      injection H as <- _. reflexivity.
  - cbn [promise_all]. pose proof (promise_all_trace rs) as Ht.
    destruct (promise_all rs) as [[e'|l'] t]; simpl in Ht; subst t; simpl in *.
    + split.
      * intros H. injection H as <-.
        destruct (proj1 IH eq_refl) as (l & after & ->).
        now exists (a :: l), after.
      * intros (l & after & H). destruct l as [|a' l]; [discriminate|].
        injection H as _ H. f_equal.
        assert (Hx : inl e' = @inl exn (list A) e) by (apply IH; eauto).
        now injection Hx.
    + split; [discriminate|].
      intros (l & after & H). destruct l as [|a' l]; [discriminate|].
      injection H as _ H.
      assert (Hx : inr l' = @inl exn (list A) e) by (apply IH; eauto).
      discriminate.
Qed.

Lemma upload_images_spec (w : World) (images : list file) :
  upload_images w images
  = (outcome (promise_all (map (settled w) images)), upload_events w images).
Proof.
  unfold upload_images, upload_events.
  rewrite start_uploads_spec. cbn [bind].
  rewrite resume_uploads_spec. cbn [bind].
  pose proof (promise_all_trace (map (settled w) images)) as Ht.
  destruct (promise_all (map (settled w) images)) as [r t].
  simpl in Ht. subst t. cbn. now rewrite !app_nil_r.
Qed.

(** X6.  The uploads: every image is sent to the store, in order, and each
    one the store accepted is then read.  The step gives the uploaded
    images, in the order of the files, exactly when every upload and every
    read succeeded; otherwise it fails with the rejection of the first file,
    in that order, whose upload or read failed. *)
Theorem upload_images_settles (w : World) (images : list file) :
  trace (upload_images w images) = upload_events w images /\
  (forall ups,
      outcome (upload_images w images) = inr ups <->
      map (settled w) images = map inr ups) /\
  (forall e,
      outcome (upload_images w images) = inl e <->
      exists before f after,
        images = before ++ f :: after /\
        Forall (fun g => exists u, settled w g = inr u) before /\
        settled w f = inl e).
Proof.
  rewrite upload_images_spec. cbn [trace outcome fst snd].
  split; [reflexivity|split].
  - intros ups. apply promise_all_values.
  - intros e. rewrite promise_all_rejection. split.
    + intros (l & after & H).
      revert l H. induction images as [|g images IH]; intros l H.
      * destruct l; discriminate.
      * destruct l as [|u l]; simpl in H.
        -- injection H as Hg _. exists [], g, images. now repeat split.
        -- injection H as Hg H.
           destruct (IH _ H) as (before & f & after' & -> & Hb & Hf).
           exists (g :: before), f, after'. repeat split; [|exact Hf].
           constructor; [now exists u|exact Hb].
    + intros (before & f & after & -> & Hb & Hf).
      induction Hb as [|g before [u Hg] _ (l & after' & IH)].
      * exists [], (map (settled w) after). simpl. now rewrite Hf.
      * exists (u :: l), after'. simpl. now rewrite Hg, IH.
Qed.

Lemma upload_images_settles_witness :
  outcome (upload_images mock_store_down [car1; car2])
  = inl (Error (js "Cloudinary upload failed")).
Proof.
  apply (upload_images_settles mock_store_down [car1; car2]).
  exists [], car1, [car2]. repeat split. constructor.
Defined.

End Uploads.

(** ** The media handler, path by path *)

Section MediaPaths.

#[local] Arguments parse_reply : simpl never.
#[local] Arguments get : simpl never.
#[local] Arguments truthy : simpl never.
#[local] Arguments upload_events : simpl never.
#[local] Arguments server_error : simpl never.
#[local] Arguments post_document : simpl never.

Lemma validatePost_past_validation
  (w : World) (req : PostRequest) (the_tags : value) (images : list file) :
  parse_tags (tags req) = ret the_tags ->
  missing_input req the_tags = false ->
  files req = Some images ->
  trace (validatePost w req)
  = trace (try_catch
             (uploadedImages <- upload_images w images ;;
              build_prompt (description req) ;;
              log Info "Validation GPT..." ;;
              result <- call ECompletion (completion w) ;;
              parsed <- parse_reply result ;;
              success <- get parsed (js "success") ;;
              if negb (truthy success) then respond 400 parsed
              else
                log Info "Envoi des données au microservice BDD..." ;;
                let document := post_document req the_tags uploadedImages in
                bddResponse <- call (EPersist document (authorization req))
                                 (persist w document (authorization req)) ;;
                bddResult <- settle (json bddResponse) ;;
                if negb (ok bddResponse) then
                  log Severe "Erreur BDD:" ;;
                  respond 500
                    (obj [("success", VBool false);
                          ("error", str "Validation réussie mais échec de l'enregistrement");
                          ("details", bddResult)])
                else
                  info <- get parsed (js "info") ;;
                  respond 201
                    (obj [("success", VBool true);
                          ("info", if truthy info then info else str "Post validé et créé");
                          ("post", bddResult)]))%M
             (fun err =>
                log Severe "Erreur dans validatePost:" ;;
                respond 500 (server_error w err))%M)
    ++ trace (unlink_files w images).
Proof.
  intros Ht Hm Hf. unfold validatePost.
  rewrite Ht, bind_ret, Hm, Hf, trace_try_finally. reflexivity.
Qed.



(** X8.  When the call to the provider fails, each handler answers 500 with
    the message of the failure.  The media handler has made its uploads,
    does not call the persistence service and deletes every file; the
    plain-data handler has done nothing else. *)
Theorem failed_completion_is_reported
  (w : World) (e : exn) :
  completion w = inl e ->
  (forall req the_tags images ups d,
      parse_tags (tags req) = ret the_tags ->
      missing_input req the_tags = false ->
      files req = Some images ->
      outcome (upload_images w images) = inr ups ->
      description req = VStr d ->
      trace (validatePost w req)
      = upload_events w images
        ++ [ELog Info (js "Validation GPT..."); ECompletion;
            ELog Severe (js "Erreur dans validatePost:");
            ERespond 500 (server_error w e)]
        ++ trace (unlink_files w images))
  /\
  (forall body,
      truthy body = true ->
      trace (validateData w body)
      = [ELog Info (js "Validation des données via GPT..."); ECompletion;
         ELog Severe (js "Erreur dans validateData:");
         ERespond 500 (server_error w e)]).
Proof.
  intros Hc. split.
  - intros req the_tags images ups d Ht Hm Hf Hu Hd.
    rewrite (validatePost_past_validation w req the_tags images Ht Hm Hf).
    rewrite upload_images_spec in *. cbn [outcome fst] in Hu. rewrite Hu.
    rewrite Hd, Hc. cbn. now rewrite <- !app_assoc.
  - intros body Hb. unfold validateData. rewrite Hb, Hc. reflexivity.
Qed.

Lemma failed_completion_is_reported_witness :
  trace (validateData mock_provider_down (obj [("username", str "testuser")]))
  = [ELog Info (js "Validation des données via GPT..."); ECompletion;
     ELog Severe (js "Erreur dans validateData:");
     ERespond 500 (server_error mock_provider_down (Error (js "GPT API Error")))]
  /\ responses (trace (validatePost mock_provider_down toyota))
     = [(500, server_error mock_provider_down (Error (js "GPT API Error")))].
Proof.
  destruct (failed_completion_is_reported mock_provider_down
              (Error (js "GPT API Error")) eq_refl) as [Hp Hd].
  split.
  - apply Hd. reflexivity.
  - rewrite (Hp toyota (tags toyota) [car1; car2] _ _
               eq_refl eq_refl eq_refl eq_refl eq_refl).
    reflexivity.
Defined.

Lemma upload_events_responses (w : World) (images : list file) :
  responses (upload_events w images) = [].
Proof.
  pose proof (upload_images_responses w images) as H.
  now rewrite upload_images_spec in H.
Qed.



(** X9.  A reply that is valid JSON but no object.  For [null], reading
    [success] throws and both handlers answer 500 through their generic
    [catch].  For a number, a string, a boolean or an array, [success] is
    [undefined], hence a rejection: the media handler answers 400 with that
    value as the body, the plain-data handler its 200 rejection. *)
Theorem reply_that_is_no_object (w : World) :
  (forall req the_tags images ups d result v,
      parse_tags (tags req) = ret the_tags ->
      missing_input req the_tags = false ->
      files req = Some images ->
      outcome (upload_images w images) = inr ups ->
      description req = VStr d ->
      completion w = inr result ->
      outcome (parse_reply result) = inr v ->
      match v with
      | VObj _ => True
      | VNull | VUndefined =>
          responses (trace (validatePost w req))
          = [(500, server_error w (TypeError (js "success")))]
      | _ => responses (trace (validatePost w req)) = [(400, v)]
      end)
  /\
  (forall body content v,
      truthy body = true ->
      completion w = inr content ->
      outcome (extractAndParseJSON (trim content)) = inr v ->
      match v with
      | VObj _ => True
      | VNull | VUndefined =>
          responses (trace (validateData w body))
          = [(500, server_error w (TypeError (js "success")))]
      | _ =>
          responses (trace (validateData w body))
          = [(200, obj [("success", VBool false);
                        ("error", str "Contenu inapproprié détecté")])]
      end).
Proof.
  split.
  - intros req the_tags images ups d result v Ht Hm Hf Hu Hd Hc Hp.
    apply (ret_of_outcome _ _ (parse_reply_trace result)) in Hp.
    rewrite (validatePost_past_validation w req the_tags images Ht Hm Hf).
    rewrite responses_app, unlink_files_responses, app_nil_r.
    rewrite upload_images_spec in *. cbn [outcome fst] in Hu. rewrite Hu.
    rewrite Hd, Hc. cbn. rewrite Hp.
    destruct v; try exact I; unfold get; cbn; unfold truthy; cbn;
      now rewrite !responses_app, upload_events_responses.
  - intros body content v Hb Hc Hp.
    apply (ret_of_outcome _ _ (extract_trace (trim content))) in Hp.
    unfold validateData. rewrite Hb, Hc. cbn. rewrite Hp.
    destruct v; try exact I; unfold get; cbn; unfold truthy; reflexivity.
Qed.

Lemma reply_that_is_no_object_witness :
  responses (trace (validatePost (mock (js "42") true) toyota))
    = [(400, VNum (MkNumber false 42 0))]
  /\ responses (trace (validateData (mock (js "null") true)
                         (obj [("username", str "testuser")])))
     = [(500, server_error (mock (js "null") true) (TypeError (js "success")))].
Proof.
  split.
  - destruct (reply_that_is_no_object (mock (js "42") true)) as [Hp _].
    apply (Hp toyota (tags toyota) [car1; car2] _ _ (js "42")
              (VNum (MkNumber false 42 0))
              eq_refl eq_refl eq_refl eq_refl eq_refl eq_refl eq_refl).
  - destruct (reply_that_is_no_object (mock (js "null") true)) as [_ Hd].
    apply (Hd (obj [("username", str "testuser")]) (js "null") VNull
              eq_refl eq_refl eq_refl).
Defined.



End MediaPaths.

(** ** What reaches the persistence service *)

Section Persistence.

#[local] Arguments parse_reply : simpl never.
#[local] Arguments get : simpl never.
#[local] Arguments truthy : simpl never.
#[local] Arguments post_document : simpl never.
#[local] Arguments server_error : simpl never.









(** X12.  When the call to the persistence service throws, or the body of
    its answer cannot be read, the media handler answers 500 through its
    generic [catch], with the message of the failure, and deletes every
    file. *)
Theorem failed_persistence_call_is_reported
  (w : World) (req : PostRequest) (the_tags : value) (images : list file)
  (ups : list uploaded) (d result : jsstring) (parsed verdict : value)
  (e : exn) :
  parse_tags (tags req) = ret the_tags ->
  missing_input req the_tags = false ->
  files req = Some images ->
  outcome (upload_images w images) = inr ups ->
  description req = VStr d ->
  completion w = inr result ->
  outcome (parse_reply result) = inr parsed ->
  get parsed (js "success") = ret verdict ->
  truthy verdict = true ->
  (persist w (post_document req the_tags ups) (authorization req) = inl e \/
   exists flag,
     persist w (post_document req the_tags ups) (authorization req)
     = inr (MkFetch flag (inl e))) ->
  responses (trace (validatePost w req)) = [(500, server_error w e)] /\
  unlinked (trace (validatePost w req)) = map path images.
Proof.
  intros Ht Hm Hf Hu Hd Hc Hp Hg Hv Hs.
  split.
  - apply (ret_of_outcome _ _ (parse_reply_trace result)) in Hp.
    pose proof (upload_images_responses w images) as Hr.
    unfold validatePost. rewrite Ht, bind_ret, Hm, Hf.
    rewrite trace_try_finally, responses_app, cleanup_responses, app_nil_r.
    destruct (upload_images w images) as [[e'|ups'] tu]; simpl in Hu, Hr;
      [discriminate|].
    injection Hu as ->.
    rewrite Hd, Hc. cbn. rewrite Hp. cbn. rewrite Hg. cbn. rewrite Hv. cbn.
    destruct Hs as [Hs|[flag Hs]]; rewrite Hs; cbn;
      unfold responses; rewrite !flat_map_app; fold (responses tu);
      now rewrite Hr.
  - destruct (validatePost_unlinks_each_file_once w req the_tags Ht Hm)
      as (_ & _ & _ & _ & H).
    now rewrite Hf in H.
Qed.

Lemma failed_persistence_call_is_reported_witness :
  let w := MkWorld (upload (mock acceptance_reply true))
                   (readFile (mock acceptance_reply true))
                   (inr acceptance_reply)
                   (fun _ _ => inl (Error (js "fetch failed")))
                   (fun _ => inr tt)
                   (fun _ => js "Unexpected token") in
  responses (trace (validatePost w toyota))
  = [(500, server_error w (Error (js "fetch failed")))].
Proof.
  cbv zeta.
  eapply (failed_persistence_call_is_reported _ toyota (tags toyota) [car1; car2]);
    try reflexivity.
  left. reflexivity.
Defined.

End Persistence.

(** ** Deletions that fail *)

Section DeletionFailures.

#[local] Arguments responses : simpl never.

Lemma unlink_files_warnings (w : World) (images : list file) :
  filter (fun ev => match ev with ELog Warn _ => true | _ => false end)
         (trace (unlink_files w images))
  = map (fun _ => ELog Warn (js "Erreur suppression fichier:"))
        (filter (fun f => match unlink w (path f) with
                          | inl _ => true
                          | inr _ => false
                          end) images).
Proof.
  induction images as [|f images IH]; [reflexivity|].
  cbn [unlink_files]. unfold call, settle.
  destruct (unlink_files w images) as [r t]. simpl in IH.
  destruct (unlink w (path f)) as [e|[]] eqn:E; cbn; rewrite ?E;
    now rewrite IH.
Qed.

(** X13.  What the deletions answer does not reach the caller.  With any
    other file system answer to the deletions, [validatePost] gives the same
    response; past the input validation it still tries every file once, in
    order, and logs one warning per deletion that failed. *)
Theorem deletion_failures_are_contained
  (w : World) (u : jsstring -> exn + unit) (req : PostRequest)
  (the_tags : value) (images : list file) :
  parse_tags (tags req) = ret the_tags ->
  missing_input req the_tags = false ->
  files req = Some images ->
  responses (trace (validatePost (with_unlink w u) req))
  = responses (trace (validatePost w req)) /\
  unlinked (trace (validatePost (with_unlink w u) req)) = map path images /\
  filter (fun ev => match ev with ELog Warn _ => true | _ => false end)
         (trace (validatePost (with_unlink w u) req))
  = map (fun _ => ELog Warn (js "Erreur suppression fichier:"))
        (filter (fun f => match u (path f) with
                          | inl _ => true
                          | inr _ => false
                          end) images).
Proof.
  intros Ht Hm Hf. split; [|split].
  - unfold validatePost. rewrite Ht, !bind_ret, Hm, Hf.
    rewrite !trace_try_finally, !responses_app, !cleanup_responses.
    rewrite !upload_images_spec. reflexivity.
  - destruct (validatePost_unlinks_each_file_once (with_unlink w u) req
                the_tags Ht Hm) as (_ & _ & _ & _ & H).
    now rewrite Hf in H.
  - unfold validatePost. rewrite Ht, bind_ret, Hm, Hf.
    rewrite trace_try_finally, filter_app.
    cbn [cleanup]. rewrite unlink_files_warnings.
    match goal with |- filter ?Q (trace ?m) ++ _ = _ =>
      assert (Hb : filter Q (trace m) = [])
    end.
    { apply only_filter. repeat only_step. }
    now rewrite Hb.
Qed.

Lemma deletion_failures_are_contained_witness :
  responses (trace (validatePost
                      (with_unlink (mock acceptance_reply true)
                         (fun _ => inl (Error (js "Permission denied"))))
                      toyota))
  = responses (trace (validatePost (mock acceptance_reply true) toyota)).
Proof.
  apply (deletion_failures_are_contained (mock acceptance_reply true)
           (fun _ => inl (Error (js "Permission denied"))) toyota
           (tags toyota) [car1; car2]); reflexivity.
Defined.

End DeletionFailures.

(** ** Tags and required fields *)

Section TagsValidation.

(** X14.  A string of tags counts as missing exactly when it is the JSON
    text of a falsy value ([null], [false], [0], an empty quoted string).
    Any string that is not valid JSON, the empty string included, becomes a
    non-empty array and passes the required-field test. *)
Theorem tags_string_counts_as_missing (s : jsstring) :
  exists v,
    parse_tags (VStr s) = ret v /\
    (truthy v = false <-> exists j, JSON_parse s = Some j /\ truthy j = false) /\
    (JSON_parse s = None ->
     exists first more, v = VArr (VStr first :: more)).
Proof.
  unfold parse_tags. destruct (JSON_parse s) as [j|] eqn:E.
  - rewrite (json_parse_some _ _ E). exists j. split; [reflexivity|split].
    + split.
      * intros H. now exists j.
      * intros (j' & Hj & H). now injection Hj as <-.
    + discriminate.
  - rewrite (json_parse_none _ E), try_catch_throw.
    eexists. split; [reflexivity|split].
    + split; [discriminate|]. intros (j & Hj & _). discriminate.
    + intros _. pose proof (split_on_nonempty 44 s) as Hn.
      destruct (split_on 44 s) as [|p more]; [contradiction|].
      now exists (trim p), (map (fun x => VStr (trim x)) more).
Qed.

Lemma tags_string_counts_as_missing_witness :
  exists v first more,
    parse_tags (str "") = ret v /\ v = VArr (VStr first :: more).
Proof.
  destruct (tags_string_counts_as_missing []) as (v & Hv & _ & H).
  destruct (H eq_refl) as (first & more & E).
  exists v, first, more. split; [exact Hv|exact E].
Defined.

End TagsValidation.

(** ** Cleaning, continued *)

Section CleaningInvariants.

Lemma remove_ticks (s : jsstring) :
  replace_all re_backtick [] s = filter (fun c => negb (96 =? c)) s.
Proof.
  unfold replace_all. induction s as [|c s IH]; [reflexivity|].
  change re_backtick with [One (lit 96)] in *.
  cbn [replace_from match_here]. unfold lit at 1.
  destruct (96 =? c) eqn:E; cbn [app filter negb List.length]; rewrite E;
    cbn [negb]; now rewrite IH.
Qed.

Lemma trimStart_id (s : jsstring) :
  (forall c r, s = c :: r -> is_space c = false) -> trimStart s = s.
Proof.
  destruct s as [|c r]; [reflexivity|]. intros H.
  simpl. now rewrite (H c r eq_refl).
Qed.

Lemma trimEnd_id (s : jsstring) :
  (forall r c, s = r ++ [c] -> is_space c = false) -> trimEnd s = s.
Proof.
  intros H. unfold trimEnd. rewrite trimStart_id; [apply rev_involutive|].
  intros c r E. apply (H (rev r) c).
  rewrite <- (rev_involutive s), E. reflexivity.
Qed.

Lemma trim_idempotent (s : jsstring) : trim (trim s) = trim s.
Proof.
  destruct (trim_spec s) as (_ & Hh & Hl).
  unfold trim at 1. rewrite (trimStart_id _ Hh). now apply trimEnd_id.
Qed.

Lemma trim_In (x : char) (s : jsstring) : In x (trim s) -> In x s.
Proof. intros H. now apply trimStart_In, trimEnd_In. Qed.

(** The extraction reads its argument through [clean] only. *)
Lemma extract_through_clean (a b : jsstring) :
  clean a = clean b -> extractAndParseJSON a = extractAndParseJSON b.
Proof. unfold extractAndParseJSON. now intros ->. Qed.

(** X15.  The text the extractor works on never holds a backtick and never
    begins or ends with white space; cleaning it again changes nothing, so
    the extraction of a cleaned text is the extraction of the text. *)
Theorem cleaned_text_invariants (text : jsstring) :
  ~ In 96 (clean text) /\
  (forall c r, clean text = c :: r -> is_space c = false) /\
  (forall r c, clean text = r ++ [c] -> is_space c = false) /\
  clean (clean text) = clean text /\
  extractAndParseJSON (clean text) = extractAndParseJSON text.
Proof.
  assert (Ht : ~ In 96 (clean text)).
  { unfold clean. intros H. apply trim_In in H.
    rewrite remove_ticks in H. apply filter_In in H as [_ H].
    now rewrite N.eqb_refl in H. }
  assert (Hi : clean (clean text) = clean text).
  { rewrite (clean_no_tick _ Ht). unfold clean. apply trim_idempotent. }
  split; [exact Ht|]. split; [|split; [|split]].
  - apply (proj1 (proj2 (trim_spec _))).
  - apply (proj2 (proj2 (trim_spec _))).
  - exact Hi.
  - now apply extract_through_clean.
Qed.

End CleaningInvariants.

(** ** Replies in a markdown fence *)

Section Fences.

Lemma replace_from_skip (re : regex) (rep a b : jsstring) :
  replace_from re rep (List.length a) (a ++ b) = replace_from re rep 0 b.
Proof.
  induction a as [|c a IH]; [reflexivity|].
  cbn [List.length app replace_from]. exact IH.
Qed.

Lemma replace_from_match (re : regex) (rep : jsstring) (c : char)
  (m rest : jsstring) :
  match_here re (c :: m ++ rest) = Some (c :: m, rest) ->
  replace_from re rep 0 (c :: m ++ rest) = rep ++ replace_from re rep 0 rest.
Proof.
  intros H. cbn [replace_from]. rewrite H.
  now rewrite replace_from_skip.
Qed.

Lemma replace_from_miss (re : regex) (rep : jsstring) (c : char) (s : jsstring) :
  match_here re (c :: s) = None ->
  replace_from re rep 0 (c :: s) = c :: replace_from re rep 0 s.
Proof. intros H. cbn [replace_from]. now rewrite H. Qed.

Lemma replace_from_copy (p : char -> bool) (re : regex) (rep a b : jsstring) :
  (forall c, In c a -> p c = false) ->
  replace_from (One p :: re) rep 0 (a ++ b)
  = a ++ replace_from (One p :: re) rep 0 b.
Proof.
  induction a as [|c a IH]; intros H; [reflexivity|].
  cbn [app replace_from match_here]. rewrite (H c) by now left.
  f_equal. apply IH. intros x Hx. apply H. now right.
Qed.

Lemma match_literal (l : jsstring) (re : regex) (s : jsstring) :
  match_here (literal l ++ re) (l ++ s)
  = match match_here re s with
    | Some (m, rest) => Some (l ++ m, rest)
    | None => None
    end.
Proof.
  induction l as [|c l IH].
  - simpl. now destruct (match_here re s) as [[m rest]|].
  - cbn [literal map app match_here]. unfold lit at 1. rewrite N.eqb_refl.
    fold (literal l). rewrite IH.
    now destruct (match_here re s) as [[m rest]|].
Qed.

Lemma star_here (p : char -> bool) (re : regex) (s : jsstring) :
  match_here (Star p :: re) s = star p (match_here re) s.
Proof. reflexivity. Qed.

Lemma star_spaces (ws : jsstring) (c : char) (rest : jsstring) :
  all_space ws -> is_space c = false ->
  star is_space (match_here []) (ws ++ c :: rest) = Some (ws, c :: rest).
Proof.
  intros Hws Hc. induction Hws as [|x ws Hx _ IH].
  - simpl. now rewrite Hc.
  - cbn [app star]. now rewrite Hx, IH.
Qed.

Lemma space_is_no_tick (ws : jsstring) : all_space ws -> ~ In 96 ws.
Proof.
  intros H Hin. unfold all_space in H. rewrite Forall_forall in H.
  apply H in Hin. discriminate.
Qed.

Lemma trimEnd_spaces (ws : jsstring) : all_space ws -> trimEnd ws = [].
Proof.
  intros H. unfold trimEnd.
  assert (Hr : all_space (rev ws)) by now apply Forall_rev.
  induction Hr as [|x l Hx _ IH]; [reflexivity|].
  simpl. rewrite Hx. exact IH.
Qed.

Ltac flat := try unfold jsstring in *; try unfold char in *.

Ltac rw L :=
  let X := fresh "X" in
  pose proof L as X; try unfold jsstring in X; try unfold char in X;
  rewrite X; clear X.

(** An opening fence and the white space after it, in front of a text that
    begins with an opening brace, is one match of the fence expression. *)
Lemma opening_fence_removed (F ws1 rest : jsstring) (c : char) (tl : jsstring) :
  F = c :: tl -> all_space ws1 ->
  replace_from (literal F ++ [Star is_space]) [] 0 (F ++ ws1 ++ 123 :: rest)
  = replace_from (literal F ++ [Star is_space]) [] 0 (123 :: rest).
Proof.
  intros -> Hws.
  pose proof (match_literal (c :: tl) [Star is_space] (ws1 ++ 123 :: rest)) as H.
  pose proof (star_spaces ws1 123 rest Hws eq_refl) as Hs.
  pose proof (replace_from_match (literal (c :: tl) ++ [Star is_space]) []
                c (tl ++ ws1) (123 :: rest)) as Hm.
  flat.
  rewrite star_here, Hs in H.
  replace ((c :: tl) ++ ws1 ++ 123 :: rest)
    with (c :: (tl ++ ws1) ++ 123 :: rest) in *
    by (simpl; now rewrite <- app_assoc).
  now rewrite Hm.
Qed.

(** X16.  A reply in a markdown fence, with or without the [json] tag, is
    cleaned to the text inside: for an object text without a backtick, with
    any white space between it and the fences, the extractor gives the
    fenced reply the outcome of the bare object. *)
Theorem fenced_reply_is_unwrapped (ws1 ws2 body : jsstring) :
  all_space ws1 -> all_space ws2 -> ~ In 96 body ->
  let o := 123 :: body ++ [125] in
  clean (fenced (js "json") ws1 o ws2) = o /\
  clean (fenced [] ws1 o ws2) = o /\
  extractAndParseJSON (fenced (js "json") ws1 o ws2) = extractAndParseJSON o /\
  extractAndParseJSON (fenced [] ws1 o ws2) = extractAndParseJSON o.
Proof.
  intros H1 H2 Hb o.
  assert (Ho : forall c, In c (o ++ ws2) -> lit 96 c = false).
  { intros c Hc. unfold lit. destruct (N.eqb_spec 96 c) as [<-|]; [|reflexivity].
    exfalso. apply in_app_or in Hc as [Hc|Hc].
    - destruct Hc as [Hc|Hc]; [discriminate|].
      apply in_app_or in Hc as [Hc|[Hc|[]]]; [contradiction|discriminate].
    - now apply (space_is_no_tick ws2). }
  assert (Hn : ~ In 96 (o ++ ws2)).
  { intros Hin. apply Ho in Hin. unfold lit in Hin.
    now rewrite N.eqb_refl in Hin. }
  assert (Ht : trim (o ++ ws2) = o).
  { pose proof (trim_around [] ws2 body 123 125 eq_refl eq_refl) as H.
    cbn [app trimStart] in H. rewrite (trimEnd_spaces _ H2), app_nil_r in H.
    exact H. }
  (* what is left once the opening fence is gone *)
  assert (Hrest : forall re,
             replace_from (One (lit 96) :: re) [] 0 (js "```") = js "```"
             \/ replace_from (One (lit 96) :: re) [] 0 (js "```") = [] ->
             trim (replace_all re_backtick []
                     (replace_all re_fence []
                        ((o ++ ws2)
                           ++ replace_from (One (lit 96) :: re) [] 0 (js "```"))))
             = o).
  { intros re Hre.
    assert (E : replace_all re_fence []
                  ((o ++ ws2) ++ replace_from (One (lit 96) :: re) [] 0 (js "```"))
                = o ++ ws2).
    { unfold replace_all.
      change re_fence with (One (lit 96) :: tl re_fence).
      rewrite (replace_from_copy _ _ _ _ _ Ho).
      destruct Hre as [-> | ->].
      - change (replace_from (One (lit 96) :: tl re_fence) [] 0 (js "```"))
          with (@nil char).
        apply app_nil_r.
      - change (replace_from (One (lit 96) :: tl re_fence) [] 0 [])
          with (@nil char).
        apply app_nil_r. }
    rewrite E.
    change re_backtick with (One (lit 96) :: tl re_backtick).
    now rewrite (replace_all_no_tick _ _ Hn). }
  assert (Hj : clean (fenced (js "json") ws1 o ws2) = o).
  { unfold clean, fenced. unfold replace_all at 3.
    assert (S1 : replace_from re_fence_json [] 0
                   (js "```" ++ js "json" ++ ws1 ++ o ++ ws2 ++ js "```")
                 = (o ++ ws2)
                     ++ replace_from (One (lit 96) :: tl re_fence_json) [] 0
                          (js "```")).
    { pose proof (opening_fence_removed (js "```json") ws1
                    ((body ++ [125]) ++ ws2 ++ js "```") 96 (js "``json")
                    eq_refl H1) as Hf.
      pose proof (replace_from_copy (lit 96) (tl re_fence_json) [] (o ++ ws2)
                    (js "```") Ho) as Hc.
      change (One (lit 96) :: tl re_fence_json) with re_fence_json in *.
      change (literal (js "```json") ++ [Star is_space])
        with re_fence_json in Hf.
      subst o.
      change (js "```" ++ js "json" ++ ws1 ++ (123 :: body ++ [125]) ++ ws2 ++ js "```")
        with (js "```json" ++ ws1 ++ 123 :: (body ++ [125]) ++ ws2 ++ js "```").
      flat.
      rewrite Hf, <- Hc. f_equal.
      simpl. now rewrite <- !app_assoc. }
    flat. rewrite S1. apply Hrest. left. reflexivity. }
  assert (Hu : clean (fenced [] ws1 o ws2) = o).
  { unfold clean, fenced. unfold replace_all at 3. cbn [app].
    assert (Hc : exists c tl, ws1 ++ o ++ ws2 ++ js "```" = c :: tl
                              /\ (96 =? c) = false /\ (106 =? c) = false).
    { destruct H1 as [|x ws Hx _].
      - exists 123, ((body ++ [125]) ++ ws2 ++ js "```"). now repeat split.
      - exists x, (ws ++ o ++ ws2 ++ js "```"). repeat split.
        + destruct (N.eqb_spec 96 x) as [<-|]; [discriminate|reflexivity].
        + destruct (N.eqb_spec 106 x) as [<-|]; [discriminate|reflexivity]. }
    destruct Hc as (c & tl0 & Ec & E96 & E106).
    assert (Hws : forall x, In x (ws1 ++ o ++ ws2) -> lit 96 x = false).
    { intros x Hx. apply in_app_or in Hx as [Hx|Hx]; [|now apply Ho].
      unfold lit. destruct (N.eqb_spec 96 x) as [<-|]; [|reflexivity].
      now apply (space_is_no_tick ws1) in Hx. }
    assert (S1 : replace_from re_fence_json [] 0
                   (js "```" ++ ws1 ++ o ++ ws2 ++ js "```")
                 = js "```" ++ ws1 ++ o ++ ws2 ++ js "```").
    { pose proof (replace_from_copy (lit 96) (tl re_fence_json) []
                    (ws1 ++ o ++ ws2) (js "```") Hws) as Hcp.
      change (One (lit 96) :: tl re_fence_json) with re_fence_json in Hcp.
      change (replace_from re_fence_json [] 0 (js "```")) with (js "```") in Hcp.
      rewrite <- !app_assoc in Hcp.
      rewrite Ec in *.
      change (js "```" ++ c :: tl0) with (96 :: 96 :: 96 :: c :: tl0).
      assert (M : forall pre,
                 pre = [96; 96; 96] \/ pre = [96; 96] \/ pre = [96] ->
                 match_here re_fence_json (pre ++ c :: tl0) = None).
      { intros pre Hpre.
        change re_fence_json
          with (One (lit 96) :: One (lit 96) :: One (lit 96) :: One (lit 106)
                  :: tl (tl (tl (tl re_fence_json)))).
        destruct Hpre as [-> |[-> | ->]]; cbn [app match_here]; unfold lit;
          now rewrite ?N.eqb_refl, ?E96, ?E106. }
      rewrite (replace_from_miss _ _ _ _ (M [96; 96; 96] (or_introl eq_refl))).
      rewrite (replace_from_miss _ _ _ _
                 (M [96; 96] (or_intror (or_introl eq_refl)))).
      rewrite (replace_from_miss _ _ _ _
                 (M [96] (or_intror (or_intror eq_refl)))).
      flat. rewrite <- Ec. now rewrite Hcp. }
    change (96 :: 96 :: 96 :: ws1 ++ o ++ ws2 ++ js "```")
      with (js "```" ++ ws1 ++ o ++ ws2 ++ js "```").
    flat. rewrite S1.
    assert (S2 : replace_all re_fence []
                   (js "```" ++ ws1 ++ o ++ ws2 ++ js "```")
                 = o ++ ws2).
    { unfold replace_all.
      pose proof (opening_fence_removed (js "```") ws1
                    ((body ++ [125]) ++ ws2 ++ js "```") 96 (js "``")
                    eq_refl H1) as Hf.
      pose proof (replace_from_copy (lit 96) (tl re_fence) [] (o ++ ws2)
                    (js "```") Ho) as Hcp.
      change (One (lit 96) :: tl re_fence) with re_fence in *.
      change (literal (js "```") ++ [Star is_space]) with re_fence in Hf.
      change (replace_from re_fence [] 0 (js "```")) with (@nil char) in Hcp.
      rewrite app_nil_r in Hcp.
      subst o.
      change (js "```" ++ ws1 ++ (123 :: body ++ [125]) ++ ws2 ++ js "```")
        with (js "```" ++ ws1 ++ 123 :: (body ++ [125]) ++ ws2 ++ js "```").
      flat.
      rewrite Hf, <- Hcp. f_equal.
      simpl. now rewrite <- !app_assoc. }
    flat. rewrite S2.
    change re_backtick with (One (lit 96) :: tl re_backtick).
    now rewrite (replace_all_no_tick _ _ Hn). }
  assert (Hco : clean o = o) by now apply clean_object.
  repeat split; try assumption;
    apply extract_through_clean; congruence.
Qed.

Lemma fenced_reply_is_unwrapped_witness :
  extractAndParseJSON (fenced (js "json") [10] (jsq "{'success': false}") [10])
  = extractAndParseJSON (jsq "{'success': false}").
Proof.
  apply (fenced_reply_is_unwrapped [10] [10] (jsq "'success': false")).
  - repeat constructor.
  - repeat constructor.
  - intros H. vm_compute in H. intuition discriminate.
Defined.

End Fences.

(** ** Acceptance in the plain-data flow *)

Section PlainAcceptance.

#[local] Arguments extractAndParseJSON : simpl never.
#[local] Arguments get : simpl never.
#[local] Arguments truthy : simpl never.
#[local] Arguments trim : simpl never.

(** X17.  For every reply whose extracted value has a truthy [success],
    [validateData] answers 200 with its own fixed body: nothing else of the
    reply reaches the caller. *)
Theorem validateData_accepts
  (w : World) (body : value) (content : jsstring) (parsed verdict : value) :
  truthy body = true ->
  completion w = inr content ->
  outcome (extractAndParseJSON (trim content)) = inr parsed ->
  get parsed (js "success") = ret verdict ->
  truthy verdict = true ->
  trace (validateData w body)
  = [ELog Info (js "Validation des données via GPT..."); ECompletion;
     ERespond 200 (obj [("success", VBool true);
                        ("message", str "Données validées avec succès")])].
Proof.
  intros Hb Hc Hp Hg Hv.
  apply (ret_of_outcome _ _ (extract_trace (trim content))) in Hp.
  unfold validateData. rewrite Hb, Hc. cbn.
  rewrite Hp. cbn. rewrite Hg. cbn. rewrite Hv. reflexivity.
Qed.

Lemma validateData_accepts_witness :
  responses (trace (validateData
                      (mock (jsq "{'success': true, 'info': 'ok'}") true)
                      (obj [("username", str "testuser")])))
  = [(200, obj [("success", VBool true);
                ("message", str "Données validées avec succès")])].
Proof.
  rewrite (validateData_accepts
             (mock (jsq "{'success': true, 'info': 'ok'}") true)
             (obj [("username", str "testuser")])
             (jsq "{'success': true, 'info': 'ok'}")
             (obj [("success", VBool true); ("info", str "ok")])
             (VBool true) eq_refl eq_refl eq_refl eq_refl eq_refl).
  reflexivity.
Defined.

End PlainAcceptance.

(** ** The CORS origin *)

Section Origins.

(** X18.  The origin option is the wildcard exactly when [ALLOWED_ORIGINS] is
    not set.  When it is set, even to the empty string, the option is the
    list of its comma-separated pieces, as they are: at least one piece,
    none with a comma, and joined by commas they spell the variable. *)
Theorem cors_origin_wildcard (env : option jsstring) :
  (cors_origin env = VStr (js "*") <-> env = None) /\
  (forall s, env = Some s ->
             exists pieces,
               cors_origin env = VArr (map VStr pieces) /\
               pieces <> [] /\
               join 44 pieces = s /\
               forall p, In p pieces -> ~ In 44 p).
Proof.
  split.
  - destruct env as [s|]; [|now split].
    split; discriminate.
  - intros s ->. exists (split_on 44 s). repeat split.
    + apply split_on_nonempty.
    + apply join_split_on.
    + intros p. apply split_on_no_sep.
Qed.

Lemma cors_origin_wildcard_witness :
  exists pieces,
    cors_origin (Some (js "http://a.fr, http://b.fr")) = VArr (map VStr pieces) /\
    join 44 pieces = js "http://a.fr, http://b.fr".
Proof.
  destruct (cors_origin_wildcard (Some (js "http://a.fr, http://b.fr")))
    as [_ H].
  destruct (H _ eq_refl) as (pieces & Hc & _ & Hj & _).
  now exists pieces.
Defined.

End Origins.
